(** * CVNavSystem: turn-by-turn walking navigation

    A shallow embedding of the two programs of the repository,

    - [iphone_gps_api.py], the class [GPS_Navigator] (module [Iphone]), and
    - [gps_api.py], the laptop version (module [Laptop]),

    followed by the properties of the route progress tracking they implement.

    Numbers.  Headings and the haversine formula are computed in binary64,
    as Python computes them (the kernel's primitive floats); the functions of
    the [math] library the formula calls are parameters (module [GeoFloat]).
    The two loops only compare distances: there the great-circle distance is
    a parameter with rational values, and [float("inf")] is a separate value
    of [Laptop.meters].  The module [GeoMath] reads the haversine formula
    over the real numbers.

    Input and output.  A sample of the location service, the answer of the
    directions service and the heading of the motion sensor are inputs of the
    functions that consume them; what a function prints is a list of [output]
    events.  The response of the directions service is a typed record: a
    payload without the keys the programs read, or a status text that the
    console of the laptop version cannot render, is outside the model.  The
    outputs of a pass of a loop are the lines the loop body prints itself;
    the lines printed inside a call of [get_directions] are the second
    component of that function's value. *)

From Stdlib Require Import Floats.
From Stdlib Require Import Reals Qreals.
From Stdlib Require Import List String Ascii Bool Arith ZArith QArith Qround Qabs Lia Psatz.
Import ListNotations.

Set Implicit Arguments.

(** ** Python values *)

Module Py.

(** The exceptions the modelled code can raise. *)
Inductive exn : Type :=
| IndexError
| KeyError
| TypeError
| AttributeError
| ValueError
| ZeroDivisionError.

(** A computation returns a value or raises. *)
Inductive result (A : Type) : Type :=
| Ok (a : A)
| Raise (e : exn).

Arguments Ok {A} a.
Arguments Raise {A} e.

Definition bind {A B : Type} (m : result A) (k : A -> result B) : result B :=
  match m with
  | Ok a => k a
  | Raise e => Raise e
  end.

(** [for x in xs], each iteration of which may raise. *)
Fixpoint for_each {A B : Type} (f : A -> result B) (xs : list A) : result (list B) :=
  match xs with
  | [] => Ok []
  | x :: rest =>
      bind (f x) (fun y => bind (for_each f rest) (fun ys => Ok (y :: ys)))
  end.

(** [xs[0]] *)
Definition first {A : Type} (xs : list A) : result A :=
  match xs with
  | [] => Raise IndexError
  | x :: _ => Ok x
  end.

(** [d[k]] on a dict with string keys, kept in insertion order. *)
Fixpoint dict_get {V : Type} (d : list (string * V)) (k : string) : result V :=
  match d with
  | [] => Raise KeyError
  | (k', v) :: rest => if String.eqb k' k then Ok v else dict_get rest k
  end.

(** [sub in s] on strings. *)
Fixpoint str_contains (sub s : string) : bool :=
  String.prefix sub s ||
  match s with
  | EmptyString => false
  | String _ rest => str_contains sub rest
  end.

(** [s.replace(old, new)]: the occurrences of [old] are found from the left
    and do not overlap.  [skip] counts the characters of a matched
    occurrence that are still to be dropped. *)
Fixpoint replace_from (skip : nat) (old new s : string) : string :=
  match s with
  | EmptyString => EmptyString
  | String c rest =>
      match skip with
      | S k => replace_from k old new rest
      | O =>
          if String.prefix old s
          then String.append new (replace_from (String.length old - 1) old new rest)
          else String c (replace_from 0 old new rest)
      end
  end.

(** With an empty [old], Python puts [new] before every character and at
    the end. *)
Fixpoint replace_empty (new s : string) : string :=
  match s with
  | EmptyString => new
  | String c rest => String.append new (String c (replace_empty new rest))
  end.

Definition str_replace (old new s : string) : string :=
  match old with
  | EmptyString => replace_empty new s
  | String _ _ => replace_from 0 old new s
  end.

(** [x < y] on numbers. *)
Definition Qltb (x y : Q) : bool := negb (Qle_bool y x).

(** The conversion of an [int] to a [float]; exact below 2^53 in absolute
    value. *)
Definition float_of_Z (z : Z) : float :=
  match z with
  | Z0 => PrimFloat.zero
  | Z.pos _ => PrimFloat.of_uint63 (Uint63Axioms.of_Z z)
  | Z.neg p => (- PrimFloat.of_uint63 (Uint63Axioms.of_Z (Z.pos p)))%float
  end.

(** C's [fmod] on binary64: the remainder has the sign of [x] and is exact.
    Two finite numbers are brought to a common exponent and the mantissas
    divided as integers. *)
Definition float_fmod (x y : float) : float :=
  match Prim2SF x, Prim2SF y with
  | S754_nan, _ => PrimFloat.nan
  | _, S754_nan => PrimFloat.nan
  | S754_infinity _, _ => PrimFloat.nan
  | _, S754_zero _ => PrimFloat.nan
  | S754_zero _, _ => x
  | S754_finite _ _ _, S754_infinity _ => x
  | S754_finite sx mx ex, S754_finite _ my ey =>
      let e := Z.min ex ey in
      match ((Z.pos mx * 2 ^ (ex - e)) mod (Z.pos my * 2 ^ (ey - e)))%Z with
      | Z.pos p => SF2Prim (S754_finite sx p e)
      | _ => SF2Prim (S754_zero sx)
      end
  end.

(** [x % y] on floats, as CPython's [float_rem] computes it: [fmod], then
    the sign of the divisor is given to the result; a zero divisor raises. *)
Definition float_mod (x y : float) : result float :=
  if (y =? 0)%float then Raise ZeroDivisionError
  else
    let m := float_fmod x y in
    if (m =? 0)%float
    then Ok (if (y <? 0)%float then PrimFloat.neg_zero else PrimFloat.zero)
    else if xorb (y <? 0)%float (m <? 0)%float then Ok (m + y)%float
    else Ok m.

End Py.

Import Py.

Declare Scope py_scope.
Delimit Scope py_scope with py.
Notation "x <- m ;; k" := (bind m (fun x => k))
  (at level 61, m at next level, right associativity) : py_scope.

(** ** Data model *)

(** A coordinate: latitude and longitude in degrees. *)
Record coord : Type := { lat : Q; lng : Q }.

(** A step of a route, with the keys of the provider's step object that the
    programs read: [html_instructions], [distance]["text"], [start_location]
    and [end_location]. *)
Record step : Type := {
  html_instructions : string;
  distance_text : string;
  start_location : coord;
  end_location : coord
}.

Definition set_html_instructions (text : string) (s : step) : step :=
  {| html_instructions := text;
     distance_text := distance_text s;
     start_location := start_location s;
     end_location := end_location s |}.

(** The JSON document of the directions service:
    [data["status"]] and [data["routes"][i]["legs"][j]["steps"]]. *)
Record leg : Type := { leg_steps : list step }.
Record route : Type := { legs : list leg }.
Record payload : Type := { status : string; routes : list route }.

(** The HTTP response of [requests.get]. *)
Record response : Type := { status_code : Z; json : payload }.

(** What the programs print. *)
Inductive output : Type :=
| CurrentStep (s : step)          (* "Current step: <instruction> (<distance>)" *)
| OffRoute                        (* "You are off route! Recalculating directions..." *)
| Display (steps : list step)     (* the table of [display_steps] *)
| ErrorStatus (s : string)        (* "Error: <status>" *)
| ErrorHttp (code : Z).           (* "Error: HTTP <code>" *)

(** One pass through a loop body: the loop goes on with a new state, the
    function returns, or an exception leaves it.  Each carries what was
    printed. *)
Inductive outcome (S : Type) : Type :=
| Next (st : S) (out : list output)
| Return (out : list output)
| Raised (e : exn) (out : list output).

Arguments Next {S} st out.
Arguments Return {S} out.
Arguments Raised {S} e out.

(** ** iphone_gps_api.py: class GPS_Navigator *)

Module Iphone.

Local Open Scope string_scope.
Local Open Scope py_scope.

(** [self.cardinal_directions] *)
Definition cardinal_directions : list (string * Z) :=
  [ ("north", 0%Z); ("northeast", 45%Z); ("east", 90%Z); ("southeast", 135%Z);
    ("south", 180%Z); ("southwest", 225%Z); ("west", 270%Z); ("northwest", 315%Z) ].

(** [get_current_heading], on the reading of the motion sensor.  The input
    is the value of [degrees(yaw)], the yaw of [motion.get_attitude()] in
    degrees. *)
Definition get_current_heading (yaw_degrees : float) : result float :=
  float_mod (yaw_degrees + 360)%float 360%float.

(** [get_turn_direction] *)
Definition get_turn_direction (current_heading : float)
    (target_cardinal_direction : string) : result string :=
  target_heading <- dict_get cardinal_directions target_cardinal_direction ;;
  angle_diff <-
    float_mod (float_of_Z target_heading - current_heading + 360)%float 360%float ;;
  if (angle_diff <? 180)%float then Ok "right" else Ok "left".

(** The order in which [convert_to_turn_directions] tries the names. *)
Definition cardinal_order : list string :=
  [ "northeast"; "northwest"; "southeast"; "southwest";
    "east"; "west"; "north"; "south" ].

(** The inner loop of [convert_to_turn_directions] on one instruction
    text, for the names [dirs] in their order. *)
Fixpoint rewrite_instruction (dirs : list string) (current_heading : float) (text : string)
  : result string :=
  match dirs with
  | [] => Ok text
  | cardinal_dir :: rest =>
      if str_contains cardinal_dir text
      then
        turn <- get_turn_direction current_heading cardinal_dir ;;
        rewrite_instruction rest current_heading (str_replace cardinal_dir turn text)
      else rewrite_instruction rest current_heading text
  end.

(** [convert_to_turn_directions]; [current_heading] is the reading of
    [get_current_heading], taken once. *)
Definition convert_to_turn_directions (current_heading : float) (steps : list step)
  : result (list step) :=
  for_each
    (fun s =>
       text <- rewrite_instruction cardinal_order current_heading (html_instructions s) ;;
       Ok (set_html_instructions text s))
    steps.

(** [get_directions], on the response of the directions service.  On a
    successful response the steps are converted, their locations turned
    into pairs, and the function ends without a [return] statement: its
    value is [None]. *)
Definition get_directions (current_heading : float) (resp : response)
  : result (option (list step)) * list output :=
  if (status_code resp =? 200)%Z then
    let data := json resp in
    if String.eqb (status data) "OK" then
      let converted :=
        r <- first (routes data) ;;
        l <- first (legs r) ;;
        convert_to_turn_directions current_heading (leg_steps l) in
      match converted with
      | Ok _steps => (Ok None, [])
      | Raise e => (Raise e, [])
      end
    else (Ok None, [ErrorStatus (status data)])
  else (Ok None, [ErrorHttp (status_code resp)]).

(** The local variables of [__call__] that the loop reads and writes. *)
Record nav : Type := {
  steps : list step;
  step_idx : nat;
  prev_distance : Q
}.

Definition set_prev_distance (d : Q) (st : nav) : nav :=
  {| steps := steps st; step_idx := step_idx st; prev_distance := d |}.

(** The inputs of one pass: the location sample, and the value of
    [self.get_directions(current_location, self.destination)] should the
    pass call it.  What that call prints is not part of the sample. *)
Record sample : Type := {
  current_location : coord;
  directions : result (option (list step))
}.

Section Navigator.

(** [self.geodesic_distance], in metres. *)
Variable geodesic_distance : coord -> coord -> Q.

(** [self.eps] *)
Variable eps : Q.

(** Lines 217-227 of [__call__]: the first fetch and the initial state. *)
Definition start (inp : sample) : outcome nav :=
  match directions inp with
  | Raise e => Raised e []
  | Ok None => Return []
  | Ok (Some new_steps) =>
      match first new_steps with
      | Raise e => Raised e [Display new_steps]
      | Ok s0 =>
          Next {| steps := new_steps;
                  step_idx := 0;
                  prev_distance :=
                    geodesic_distance (current_location inp) (end_location s0) |}
               [Display new_steps]
      end
  end.

(** The branch [distance < self.eps]. *)
Definition on_arrival (st : nav) : nav * list output :=
  let idx := S (step_idx st) in
  ({| steps := steps st; step_idx := idx; prev_distance := prev_distance st |},
   if (idx <? List.length (steps st))%nat
   then match nth_error (steps st) idx with
        | Some s => [CurrentStep s]
        | None => []
        end
   else []).

(** The branch [distance > prev_distance], up to its last assignment.  The
    output holds the lines this branch prints itself. *)
Definition on_deviation (st : nav) (inp : sample) : outcome nav :=
  match directions inp with
  | Raise e => Raised e [OffRoute]
  | Ok None => Return [OffRoute]
  | Ok (Some new_steps) =>
      match first new_steps with
      | Raise e => Raised e [OffRoute; Display new_steps]
      | Ok s0 =>
          Next {| steps := new_steps;
                  step_idx := 0;
                  prev_distance :=
                    geodesic_distance (current_location inp) (end_location s0) |}
               [OffRoute; Display new_steps]
      end
  end.

(** The body of [while step_idx < len(steps)]. *)
Definition tick (st : nav) (inp : sample) : outcome nav :=
  match first (steps st) with
  | Raise e => Raised e []
  | Ok s0 =>
      let distance := geodesic_distance (current_location inp) (end_location s0) in
      let branch :=
        if Qltb distance eps then
          let '(st', out) := on_arrival st in Next st' out
        else if Qltb (prev_distance st) distance then on_deviation st inp
        else Next st []
      in
      match branch with
      | Next st' out => Next (set_prev_distance distance st') out
      | Return out => Return out
      | Raised e out => Raised e out
      end
  end.

Definition loop_guard (st : nav) : bool :=
  (step_idx st <? List.length (steps st))%nat.

(** How a run over finitely many samples stands at its end. *)
Inductive run_state : Type :=
| Looping (st : nav)       (* the guard holds, the next sample is awaited *)
| Finished (st : nav)      (* the guard failed: the loop is left *)
| Returned                 (* [return] inside the loop *)
| Crashed (e : exn).

(** The loop over the samples [inps], from the state [st]. *)
Fixpoint loop (st : nav) (inps : list sample) : run_state * list output :=
  if loop_guard st then
    match inps with
    | [] => (Looping st, [])
    | inp :: rest =>
        match tick st inp with
        | Next st' out => let '(r, out') := loop st' rest in (r, (out ++ out')%list)
        | Return out => (Returned, out)
        | Raised e out => (Crashed e, out)
        end
    end
  else (Finished st, []).

(** [__call__]: the first sample starts the session, the others feed the
    loop. *)
Definition call (first_inp : sample) (inps : list sample) : run_state * list output :=
  match start first_inp with
  | Next st out => let '(r, out') := loop st inps in (r, (out ++ out')%list)
  | Return out => (Returned, out)
  | Raised e out => (Crashed e, out)
  end.

End Navigator.

End Iphone.

(** ** gps_api.py: the laptop version *)

Module Laptop.

Local Open Scope string_scope.
Local Open Scope py_scope.

(** A distance in metres, or [float("inf")]. *)
Inductive meters : Type :=
| Finite (d : Q)
| Infinity.

(** [x < y] on such values. *)
Definition meters_ltb (x y : meters) : bool :=
  match x, y with
  | Finite a, Finite b => Qltb a b
  | Finite _, Infinity => true
  | Infinity, _ => false
  end.

(** [get_directions], on the response of the directions service.  The
    second component holds the line the function prints before it returns
    [None]; the console renders that line as markup, and a status text it
    cannot render is outside the model, as is a payload without the keys
    read here. *)
Definition get_directions (resp : response) : result (option (list step)) * list output :=
  if (status_code resp =? 200)%Z then
    let data := json resp in
    if String.eqb (status data) "OK" then
      (r <- first (routes data) ;;
       l <- first (legs r) ;;
       Ok (Some (leg_steps l)), [])
    else (Ok None, [ErrorStatus (status data)])
  else (Ok None, [ErrorHttp (status_code resp)]).

(** The local variables of [main] that the loop reads and writes.  [steps]
    is [None] after a failed recomputation; [prev_step] is [None] when it
    was taken from [get_closest_step] on a route without steps. *)
Record nav : Type := {
  steps : option (list step);
  step_idx : nat;
  prev_step : option step
}.

(** The inputs of one pass: the location sample, and the value of
    [get_directions(api_key, current_location, destination)] should the
    pass call it.  What that call prints is not part of the sample. *)
Record sample : Type := {
  current_location : coord;
  directions : result (option (list step))
}.

Section Main.

(** [geopy.distance.geodesic(a, b).meters] *)
Variable geodesic : coord -> coord -> Q.

(** The loop of [get_closest_step], from the values [closest_step] and
    [min_distance] have so far. *)
Fixpoint closest_from (current_location : coord) (steps : list step)
    (closest_step : option step) (min_distance : meters) : option step * meters :=
  match steps with
  | [] => (closest_step, min_distance)
  | s :: rest =>
      let distance := geodesic (end_location s) current_location in
      if meters_ltb (Finite distance) min_distance
      then closest_from current_location rest (Some s) (Finite distance)
      else closest_from current_location rest closest_step min_distance
  end.

(** [get_closest_step] *)
Definition get_closest_step (current_location : coord) (steps : list step)
  : option step * meters :=
  closest_from current_location steps None Infinity.

(** Lines 147-165 of [main]: the first fetch and the initial state. *)
Definition start (inp : sample) : outcome nav :=
  match directions inp with
  | Raise e => Raised e []
  | Ok None => Return []
  | Ok (Some new_steps) =>
      match first new_steps with
      | Raise e => Raised e [Display new_steps]
      | Ok closest_step =>
          Next {| steps := Some new_steps;
                  step_idx := 0;
                  prev_step := Some closest_step |}
               [Display new_steps; CurrentStep closest_step]
      end
  end.

(** The branch [distance < 50]; [prev_step.get] and [closest_step.get]
    need a step object. *)
Definition on_arrival (st : nav) (closest_step : option step) : outcome nav :=
  match prev_step st, closest_step with
  | Some p, Some c =>
      if negb (String.eqb (html_instructions p) (html_instructions c))
      then Next {| steps := steps st;
                   step_idx := S (step_idx st);
                   prev_step := Some c |}
                [CurrentStep c]
      else Next st []
  | _, _ => Raised AttributeError []
  end.

(** The [else] branch: the route is requested again.  The output holds the
    lines this branch prints itself; the line [get_directions] prints
    before it returns [None] comes between them and is not listed. *)
Definition on_off_route (st : nav) (closest_step : option step) (inp : sample)
  : outcome nav :=
  match directions inp with
  | Raise e => Raised e [OffRoute]
  | Ok None =>
      Next {| steps := None; step_idx := step_idx st; prev_step := prev_step st |}
           [OffRoute]
  | Ok (Some new_steps) =>
      Next {| steps := Some new_steps; step_idx := 0; prev_step := closest_step |}
           [OffRoute; Display new_steps]
  end.

(** The body of [while step_idx <= len(steps)]. *)
Definition tick (st : nav) (inp : sample) : outcome nav :=
  match steps st with
  | None => Raised TypeError []
  | Some route_steps =>
      let '(closest_step, distance) :=
        get_closest_step (current_location inp) route_steps in
      if meters_ltb distance (Finite 50)
      then on_arrival st closest_step
      else on_off_route st closest_step inp
  end.

(** [step_idx <= len(steps)]; [len(None)] raises. *)
Definition loop_guard (st : nav) : result bool :=
  match steps st with
  | None => Raise TypeError
  | Some route_steps => Ok (step_idx st <=? List.length route_steps)%nat
  end.

(** How a run over finitely many samples stands at its end. *)
Inductive run_state : Type :=
| Looping (st : nav)
| Finished (st : nav)
| Returned
| Crashed (e : exn).

(** The loop over the samples [inps], from the state [st]. *)
Fixpoint loop (st : nav) (inps : list sample) : run_state * list output :=
  match loop_guard st with
  | Raise e => (Crashed e, [])
  | Ok false => (Finished st, [])
  | Ok true =>
      match inps with
      | [] => (Looping st, [])
      | inp :: rest =>
          match tick st inp with
          | Next st' out => let '(r, out') := loop st' rest in (r, (out ++ out')%list)
          | Return out => (Returned, out)
          | Raised e out => (Crashed e, out)
          end
      end
  end.

(** [main], once the API key is found: the first sample starts the
    session, the others feed the loop. *)
Definition main (first_inp : sample) (inps : list sample) : run_state * list output :=
  match start first_inp with
  | Next st out => let '(r, out') := loop st inps in (r, (out ++ out')%list)
  | Return out => (Returned, out)
  | Raised e out => (Crashed e, out)
  end.

End Main.

End Laptop.

(** ** Geo math over the real numbers

    [GPS_Navigator.geodesic_distance] with its operations read over the real
    numbers: what the haversine formula computes when no operation rounds.
    The program computes in binary64, where [sin], [cos] and the additions
    round; this reading bounds the ideal value, not the rounded one. *)

Module GeoMath.

Local Open Scope R_scope.
Local Open Scope py_scope.

(** [math.radians] *)
Definition radians (deg : R) : R := deg * PI / 180.

(** [math.sqrt]: a negative argument raises [ValueError]. *)
Definition math_sqrt (x : R) : result R :=
  if Rle_lt_dec 0 x then Ok (sqrt x) else Raise ValueError.

(** [math.atan2] *)
Definition math_atan2 (y x : R) : R :=
  if Rlt_dec 0 x then atan (y / x)
  else if Rlt_dec x 0 then
    if Rle_lt_dec 0 y then atan (y / x) + PI else atan (y / x) - PI
  else if Rlt_dec 0 y then PI / 2
  else if Rlt_dec y 0 then - (PI / 2)
  else 0.

(** Radius of the Earth in metres: [6373.0 * 1e3]. *)
Definition earth_radius : R := 6373 * 1000.

(** The quantity [a] of [geodesic_distance], for two (latitude, longitude)
    pairs in degrees. *)
Definition haversine_a (coord_1 coord_2 : R * R) : R :=
  let coord_1 := (radians (fst coord_1), radians (snd coord_1)) in
  let coord_2 := (radians (fst coord_2), radians (snd coord_2)) in
  let dlon := snd coord_2 - snd coord_1 in
  let dlat := fst coord_2 - fst coord_1 in
  Rsqr (sin (dlat / 2)) + cos (fst coord_1) * cos (fst coord_2) * Rsqr (sin (dlon / 2)).

(** [geodesic_distance] *)
Definition geodesic_distance (coord_1 coord_2 : R * R) : result R :=
  let a := haversine_a coord_1 coord_2 in
  root_a <- math_sqrt a ;;
  root_1_a <- math_sqrt (1 - a) ;;
  let c := 2 * math_atan2 root_a root_1_a in
  Ok (earth_radius * c).

(** A coordinate of the data model as a pair of reals. *)
Definition to_reals (c : coord) : R * R := (Q2R (lat c), Q2R (lng c)).

End GeoMath.

(** ** Geo math in binary64

    [GPS_Navigator.geodesic_distance] as Python computes it.  The sums,
    products, quotients and the square root are those of binary64.  The
    functions of the C library behind [math.sin], [math.cos], [math.atan2]
    and [**] are parameters: their values are not fixed by the language. *)

Module GeoFloat.

Local Open Scope float_scope.
Local Open Scope py_scope.

(** [math.pi] *)
Definition pi : float := 0x1.921fb54442d18p+1.

(** [math.radians]: CPython multiplies by the constant [pi / 180]. *)
Definition radians (x : float) : float := x * (pi / 180).

(** [math.sqrt]: a negative argument raises [ValueError]. *)
Definition math_sqrt (x : float) : result float :=
  if x <? 0 then Raise ValueError else Ok (PrimFloat.sqrt x).

Section Libm.

(** [math.sin], [math.cos] and [math.atan2] on finite arguments, and
    [x ** y]. *)
Variable sin cos : float -> float.
Variable atan2 : float -> float -> float.
Variable pow : float -> float -> float.

(** The quantity [a] of [geodesic_distance], for two (latitude, longitude)
    pairs in degrees. *)
Definition haversine_a (coord_1 coord_2 : float * float) : float :=
  let coord_1 := (radians (fst coord_1), radians (snd coord_1)) in
  let coord_2 := (radians (fst coord_2), radians (snd coord_2)) in
  let dlon := snd coord_2 - snd coord_1 in
  let dlat := fst coord_2 - fst coord_1 in
  pow (sin (dlat / 2)) 2 + cos (fst coord_1) * cos (fst coord_2) * pow (sin (dlon / 2)) 2.

(** [geodesic_distance] *)
Definition geodesic_distance (coord_1 coord_2 : float * float) : result float :=
  let R := 6373 * 1000 in
  let a := haversine_a coord_1 coord_2 in
  root_a <- math_sqrt a ;;
  root_1_a <- math_sqrt (1 - a) ;;
  let c := 2 * atan2 root_a root_1_a in
  let distance := R * c in
  Ok distance.

End Libm.

(** Two antipodal coordinates: (86.9738, -73.2269) and
    (-86.9738, 106.7731), as binary64 numbers. *)
Definition north_point : float * float :=
  (0x1.5be52bd3c3611p+6, -0x1.24e858793dd98p+6).

Definition south_point : float * float :=
  (-0x1.5be52bd3c3611p+6, 0x1.ab17a786c2268p+6).

(** The values the C library returns at the arguments the formula reaches
    on these two coordinates, as tables; elsewhere the tables hold 0.  The
    square is the rounded product, and [atan2] is not reached. *)
Definition table_sin (x : float) : float :=
  if x =? -0x1.849a4877eb758p+0 then -0x1.ff49384a19ec6p-1
  else if x =? 0x1.921fb54442d18p+0 then 1
  else 0.

Definition table_cos (x : float) : float :=
  if x =? 0x1.849a4877eb758p+0 then 0x1.b07a1b7d87459p-5
  else if x =? -0x1.849a4877eb758p+0 then 0x1.b07a1b7d87459p-5
  else 0.

Definition table_pow (x y : float) : float :=
  if y =? 2 then x * x else 0.

Definition table_atan2 (y x : float) : float := 0.

End GeoFloat.

(** ** A flat metric for concrete runs

    The parameters [geodesic_distance] and [geodesic] are instantiated with
    this function where a run is evaluated on explicit coordinates: one
    degree counts as 100000 metres along each axis.  No general statement
    below depends on it. *)
Definition grid_distance (a b : coord) : Q :=
  (100000 * (Qabs (lat a - lat b) + Qabs (lng a - lng b)))%Q.

(** ** The vocabulary of the bearing resolver

    The eight named directions and their reference bearings as the
    specification lists them (section 4.2): north=0, northeast=45, east=90,
    southeast=135, south=180, southwest=225, west=270, northwest=315. *)
Inductive cardinal : Type :=
| North | Northeast | East | Southeast | South | Southwest | West | Northwest.

Definition all_cardinals : list cardinal :=
  [North; Northeast; East; Southeast; South; Southwest; West; Northwest].

Definition cardinal_name (c : cardinal) : string :=
  match c with
  | North => "north"
  | Northeast => "northeast"
  | East => "east"
  | Southeast => "southeast"
  | South => "south"
  | Southwest => "southwest"
  | West => "west"
  | Northwest => "northwest"
  end%string.

Definition bearing (c : cardinal) : Z :=
  match c with
  | North => 0
  | Northeast => 45
  | East => 90
  | Southeast => 135
  | South => 180
  | Southwest => 225
  | West => 270
  | Northwest => 315
  end%Z.

(** The simple names that occur inside a compound name. *)
Definition part_of (a b : cardinal) : bool :=
  match a, b with
  | North, Northeast | North, Northwest
  | East, Northeast | East, Southeast
  | South, Southeast | South, Southwest
  | West, Northwest | West, Southwest => true
  | _, _ => false
  end.

(** ** Routes, responses and samples for concrete runs *)

Definition point (x y : Q) : coord := {| lat := x; lng := y |}.

(** Two steps whose ends are 100 metres apart for [grid_distance], and a
    step of another route. *)
Definition step_a : step :=
  {| html_instructions := "Head north on 1st St";
     distance_text := "0.1 km";
     start_location := point 0 (-1 # 1000);
     end_location := point 0 0 |}.

Definition step_b : step :=
  {| html_instructions := "Turn left onto Hillside Ave";
     distance_text := "0.1 km";
     start_location := point 0 0;
     end_location := point 0 (1 # 1000) |}.

Definition step_c : step :=
  {| html_instructions := "Head east on 2nd St";
     distance_text := "0.3 km";
     start_location := point 0 (2 # 1000);
     end_location := point 0 (5 # 1000) |}.

(** A response with HTTP status 200 and payload status OK whose first leg
    holds [steps]. *)
Definition ok_response (steps : list step) : response :=
  {| status_code := 200;
     json := {| status := "OK"; routes := [ {| legs := [ {| leg_steps := steps |} ] |} ] |} |}.

(** What a pass printed, and how often it reported a deviation. *)
Definition printed {S : Type} (o : outcome S) : list output :=
  match o with
  | Next _ out => out
  | Return out => out
  | Raised _ out => out
  end.

Fixpoint count_off_route (out : list output) : nat :=
  match out with
  | [] => 0
  | OffRoute :: rest => S (count_off_route rest)
  | _ :: rest => count_off_route rest
  end.

(** Distances of a walker who comes no closer than [eps] and never moves
    away: each is at least [eps] and at most the one before, the first at
    most [prev]. *)
Fixpoint approaching (eps prev : Q) (ds : list Q) : Prop :=
  match ds with
  | [] => True
  | d :: rest => (eps <= d /\ d <= prev /\ approaching eps d rest)%Q
  end.

(** * Properties *)

(** ** Numbers *)

Lemma Qltb_lt (x y : Q) : Qltb x y = true <-> x < y.
Proof.
  unfold Qltb. rewrite negb_true_iff, <- not_true_iff_false, Qle_bool_iff.
  split; [apply Qnot_le_lt | apply Qlt_not_le].
Qed.

Lemma Qltb_ge (x y : Q) : Qltb x y = false <-> y <= x.
Proof.
  unfold Qltb. rewrite negb_false_iff. apply Qle_bool_iff.
Qed.



(** [x % 360] raises for no [x]. *)
Lemma float_mod_360_defined (x : float) :
  exists diff : float, float_mod x 360 = Ok diff.
Proof.
  unfold float_mod.
  change ((360 =? 0)%float) with false. change ((360 <? 0)%float) with false.
  cbv iota. cbn [xorb].
  destruct (float_fmod x 360 =? 0)%float; [eexists; reflexivity |].
  destruct (float_fmod x 360 <? 0)%float; eexists; reflexivity.
Qed.

(** ** Bearing resolver *)

(** The dict of the navigator holds the bearing of every named direction. *)
Lemma cardinal_directions_bearing (c : cardinal) :
  dict_get Iphone.cardinal_directions (cardinal_name c) = Ok (bearing c).
Proof. destruct c; reflexivity. Qed.



(** The two boundary cases for each of the eight names: facing the target
    ([diff == 0]) turns right, facing away from it ([diff == 180]) turns
    left. *)
Lemma turn_facing_the_bearing (c : cardinal) :
  Iphone.get_turn_direction (float_of_Z (bearing c)) (cardinal_name c)
  = Ok "right"%string.
Proof. destruct c; reflexivity. Qed.

Lemma turn_facing_away_from_the_bearing (c : cardinal) :
  Iphone.get_turn_direction (float_of_Z ((bearing c + 180) mod 360)) (cardinal_name c)
  = Ok "left"%string.
Proof. destruct c; reflexivity. Qed.

Example turn_facing_north : Iphone.get_turn_direction 0 "north" = Ok "right"%string.
Proof. reflexivity. Qed.

Example turn_facing_south : Iphone.get_turn_direction 180 "north" = Ok "left"%string.
Proof. reflexivity. Qed.

(** The sum is rounded before the remainder is taken: a heading just above
    90 degrees gives the angle 0 to "east", not an angle just below 360. *)
Example turn_just_past_east :
  float_mod (float_of_Z 90 - (90 + 0x1p-46) + 360) 360 = Ok 0%float /\
  Iphone.get_turn_direction (90 + 0x1p-46) "east" = Ok "right"%string.
Proof. split; reflexivity. Qed.

(** So is the yaw of the sensor: a yaw just below 0 gives the heading 0. *)
Example heading_of_a_small_negative_yaw :
  Iphone.get_current_heading (- 0x1p-60) = Ok 0%float.
Proof. reflexivity. Qed.

(** A name outside the dict raises. *)
Example turn_unknown_name : Iphone.get_turn_direction 0 "up" = Raise KeyError.
Proof. reflexivity. Qed.

(** ** The closest step (laptop version) *)

Section ClosestStep.

Variable geodesic : coord -> coord -> Q.

(** Once a candidate is held, the loop ends with a candidate that is the
    one held or a later step, at a distance below those of all later steps
    and not above the one held. *)
Lemma closest_from_candidate (loc : coord) (steps : list step) :
  forall (c0 : step) (d0 : Q),
  exists (c : step) (d : Q),
    Laptop.closest_from geodesic loc steps (Some c0) (Laptop.Finite d0)
      = (Some c, Laptop.Finite d) /\
    ((c = c0 /\ d = d0) \/ (In c steps /\ d = geodesic (end_location c) loc)) /\
    d <= d0 /\
    Forall (fun t => d <= geodesic (end_location t) loc) steps.
Proof.
  induction steps as [| s rest IH]; intros c0 d0; cbn [Laptop.closest_from].
  - exists c0, d0. repeat split; auto using Qle_refl.
  - cbn [Laptop.meters_ltb].
    destruct (Qltb (geodesic (end_location s) loc) d0) eqn:Hlt.
    + apply Qltb_lt in Hlt.
      destruct (IH s (geodesic (end_location s) loc)) as (c & d & Hrun & Hc & Hle & Hall).
      exists c, d. split; [exact Hrun |]. split; [| split].
      * right. destruct Hc as [[-> ->] | [Hin ->]]; split; simpl; auto.
      * lra.
      * constructor; assumption.
    + apply Qltb_ge in Hlt.
      destruct (IH c0 d0) as (c & d & Hrun & Hc & Hle & Hall).
      exists c, d. split; [exact Hrun |]. split; [| split].
      * destruct Hc as [Hc | [Hin ->]]; [left; exact Hc | right; split; simpl; auto].
      * exact Hle.
      * constructor; [lra | assumption].
Qed.

(** On a list with a step the loop ends with a step of the list, at the
    smallest distance. *)
Lemma closest_step_of_nonempty (loc : coord) (s0 : step) (rest : list step) :
  exists (s : step) (d : Q),
    Laptop.get_closest_step geodesic loc (s0 :: rest) = (Some s, Laptop.Finite d) /\
    In s (s0 :: rest) /\
    d = geodesic (end_location s) loc /\
    Forall (fun t => d <= geodesic (end_location t) loc) (s0 :: rest).
Proof.
  unfold Laptop.get_closest_step.
  cbn [Laptop.closest_from Laptop.meters_ltb].
  destruct (closest_from_candidate loc rest s0 (geodesic (end_location s0) loc))
    as (c & d & Hrun & Hc & Hle & Hall).
  exists c, d. split; [exact Hrun |]. split; [| split].
  - destruct Hc as [[-> _] | [Hin _]]; simpl; auto.
  - destruct Hc as [[-> ->] | [_ ->]]; reflexivity.
  - constructor; assumption.
Qed.

(** C10.  On an empty list [get_closest_step] returns [(None, inf)].  On a
    list with a step it returns a step [s] of the list with the distance [d]
    between the end location of [s] and the current location, and [d] is at
    most the distance of every step of the list. *)
Theorem get_closest_step_is_minimum (loc : coord) :
  Laptop.get_closest_step geodesic loc [] = (None, Laptop.Infinity) /\
  forall (s0 : step) (rest : list step),
  exists (s : step) (d : Q),
    Laptop.get_closest_step geodesic loc (s0 :: rest) = (Some s, Laptop.Finite d) /\
    In s (s0 :: rest) /\
    d = geodesic (end_location s) loc /\
    Forall (fun t => d <= geodesic (end_location t) loc) (s0 :: rest).
Proof.
  split; [reflexivity |].
  intros s0 rest. apply closest_step_of_nonempty.
Qed.

(** Among steps at the same smallest distance the earliest one is kept:
    a later step replaces the candidate only when it is strictly closer. *)
Lemma closest_from_keeps_on_tie (loc : coord) (s c0 : step) (d0 : Q) :
  d0 <= geodesic (end_location s) loc ->
  Laptop.closest_from geodesic loc [s] (Some c0) (Laptop.Finite d0)
    = (Some c0, Laptop.Finite d0).
Proof.
  intros Hge. cbn [Laptop.closest_from Laptop.meters_ltb].
  apply Qltb_ge in Hge. rewrite Hge. reflexivity.
Qed.

(** The closest of two steps: the second one only when strictly closer. *)
Lemma closest_of_two_first (loc : coord) (a b : step) :
  geodesic (end_location a) loc <= geodesic (end_location b) loc ->
  Laptop.get_closest_step geodesic loc [a; b]
    = (Some a, Laptop.Finite (geodesic (end_location a) loc)).
Proof.
  intros Hle. unfold Laptop.get_closest_step.
  cbn [Laptop.closest_from Laptop.meters_ltb].
  apply Qltb_ge in Hle. rewrite Hle. reflexivity.
Qed.

Lemma closest_of_two_second (loc : coord) (a b : step) :
  geodesic (end_location b) loc < geodesic (end_location a) loc ->
  Laptop.get_closest_step geodesic loc [a; b]
    = (Some b, Laptop.Finite (geodesic (end_location b) loc)).
Proof.
  intros Hlt. unfold Laptop.get_closest_step.
  cbn [Laptop.closest_from Laptop.meters_ltb].
  apply Qltb_lt in Hlt. rewrite Hlt. reflexivity.
Qed.

End ClosestStep.

(** ** The instruction rewrite *)

(** Whatever the heading, a named direction resolves to one of the two turn
    words. *)
Lemma get_turn_direction_two_words (h : float) (c : cardinal) :
  Iphone.get_turn_direction h (cardinal_name c) = Ok "right"%string \/
  Iphone.get_turn_direction h (cardinal_name c) = Ok "left"%string.
Proof.
  unfold Iphone.get_turn_direction.
  rewrite cardinal_directions_bearing. cbn [bind].
  destruct (float_mod_360_defined (float_of_Z (bearing c) - h + 360)) as [diff ->].
  cbn [bind]. destruct (diff <? 180)%float; [left | right]; reflexivity.
Qed.

(** The names tried by the rewrite are the eight names of the vocabulary. *)
Lemma cardinal_order_names :
  forall name : string,
    In name Iphone.cardinal_order <-> In name (map cardinal_name all_cardinals).
Proof.
  intros name. unfold Iphone.cardinal_order. simpl. tauto.
Qed.

(** The rewrite of an instruction never raises: every name it resolves is a
    key of the dict. *)
Lemma rewrite_instruction_total (h : float) (cs : list cardinal) :
  forall text : string,
  exists text' : string,
    Iphone.rewrite_instruction (map cardinal_name cs) h text = Ok text'.
Proof.
  induction cs as [| c cs IH]; intros text; cbn [map Iphone.rewrite_instruction].
  - exists text. reflexivity.
  - destruct (str_contains (cardinal_name c) text); [| apply IH].
    destruct (get_turn_direction_two_words h c) as [-> | ->]; cbn [bind]; apply IH.
Qed.

(** C9, as the code has it.  Each of north, east, south and west is a
    substring of two compound names, and these are the only inclusions among
    the eight names.  The rewrite tries the names in a fixed order, the four
    compound names first, in which no name is a substring of a name tried
    after it; in that order an instruction made of "Head " and one name is
    rewritten to "Head " and the turn word of that very name. *)
Theorem cardinal_names_compound_first :
  (forall a b : cardinal,
      str_contains (cardinal_name a) (cardinal_name b) = true <->
      (a = b \/ part_of a b = true)) /\
  ForallOrdPairs (fun earlier later => str_contains earlier later = false)
    Iphone.cardinal_order /\
  (forall (h : float) (c : cardinal),
      exists turn : string,
        Iphone.get_turn_direction h (cardinal_name c) = Ok turn /\
        Iphone.rewrite_instruction Iphone.cardinal_order h
          (String.append "Head " (cardinal_name c))
        = Ok (String.append "Head " turn)).
Proof.
  split; [| split].
  - intros a b. split.
    + destruct a, b; intros H; try discriminate H; auto.
    + intros [<- | H]; [destruct a; reflexivity | destruct a, b; try discriminate H; reflexivity].
  - unfold Iphone.cardinal_order.
    repeat (constructor; [repeat constructor |]). constructor.
  - intros h c.
    assert (Hturn := get_turn_direction_two_words h).
    destruct c;
      match goal with
      | |- context [cardinal_name ?c] =>
          destruct (Hturn c) as [E | E];
          [exists "right"%string | exists "left"%string];
          (split; [exact E |]);
          cbn [cardinal_name] in E |- *;
          cbn -[Iphone.get_turn_direction]; rewrite E; reflexivity
      end.
Qed.

(** Against the wording of the specification: "north" occurs in
    "northeast", and trying the names in the reverse order rewrites
    "Head northeast" differently. *)
Lemma cardinal_rewrite_order_matters :
  (exists a b : cardinal, a <> b /\ str_contains (cardinal_name a) (cardinal_name b) = true) /\
  (exists (order : list string) (h : float) (text : string),
      order = rev Iphone.cardinal_order /\
      Iphone.rewrite_instruction Iphone.cardinal_order h text = Ok "Head right"%string /\
      Iphone.rewrite_instruction order h text = Ok "Head rightright"%string).
Proof.
  split.
  - exists North, Northeast. split; [discriminate | reflexivity].
  - exists (rev Iphone.cardinal_order), 0%float, "Head northeast"%string.
    repeat split.
Qed.

(** ** Fetching directions *)

(** [convert_to_turn_directions] never raises. *)
Lemma convert_to_turn_directions_total (h : float) (steps : list step) :
  exists steps' : list step, Iphone.convert_to_turn_directions h steps = Ok steps'.
Proof.
  unfold Iphone.convert_to_turn_directions.
  induction steps as [| s rest [rest' IH]]; cbn [for_each].
  - exists []. reflexivity.
  - destruct (rewrite_instruction_total h
                [Northeast; Northwest; Southeast; Southwest; East; West; North; South]
                (html_instructions s)) as [text Htext].
    change (map cardinal_name _) with Iphone.cardinal_order in Htext.
    rewrite Htext. cbn [bind]. rewrite IH. cbn [bind].
    eexists. reflexivity.
Qed.

(** C2, on the code of [iphone_gps_api.py].  A response with HTTP status 200
    and payload status OK that holds a route with a leg makes
    [GPS_Navigator.get_directions] return [None] and print nothing: the
    converted steps are dropped. *)
Theorem iphone_get_directions_drops_steps
    (h : float) (resp : response) (r : route) (rs : list route) (l : leg) (ls : list leg) :
  status_code resp = 200%Z ->
  status (json resp) = "OK"%string ->
  routes (json resp) = r :: rs ->
  legs r = l :: ls ->
  Iphone.get_directions h resp = (Ok None, []).
Proof.
  intros Hcode Hstatus Hroutes Hlegs. unfold Iphone.get_directions.
  rewrite Hcode, Hstatus, Hroutes. cbn [Z.eqb Pos.eqb String.eqb first bind].
  change (("OK" =? "OK")%string) with true. cbv iota.
  rewrite Hlegs. cbn [first bind].
  destruct (convert_to_turn_directions_total h (leg_steps l)) as [steps' ->].
  reflexivity.
Qed.

Lemma iphone_get_directions_drops_two_steps :
  Iphone.get_directions 0%float (ok_response [step_a; step_b]) = (Ok None, []).
Proof.
  apply (iphone_get_directions_drops_steps 0%float (ok_response [step_a; step_b])
           (r := {| legs := [ {| leg_steps := [step_a; step_b] |} ] |}) (rs := [])
           (l := {| leg_steps := [step_a; step_b] |}) (ls := []));
    reflexivity.
Defined.

(** Whatever the response, [GPS_Navigator.get_directions] returns no list of
    steps. *)
Lemma iphone_get_directions_never_steps (h : float) (resp : response) :
  match fst (Iphone.get_directions h resp) with
  | Ok (Some _) => False
  | _ => True
  end.
Proof.
  unfold Iphone.get_directions.
  destruct (status_code resp =? 200)%Z; [| exact I].
  destruct (status (json resp) =? "OK")%string; [| exact I].
  destruct (bind (first (routes (json resp))) _); exact I.
Qed.

(** The laptop version returns the steps of the first leg on such a
    response, in the order of the payload. *)
Lemma laptop_get_directions_returns_steps
    (resp : response) (r : route) (rs : list route) (l : leg) (ls : list leg) :
  status_code resp = 200%Z ->
  status (json resp) = "OK"%string ->
  routes (json resp) = r :: rs ->
  legs r = l :: ls ->
  Laptop.get_directions resp = (Ok (Some (leg_steps l)), []).
Proof.
  intros Hcode Hstatus Hroutes Hlegs. unfold Laptop.get_directions.
  rewrite Hcode, Hstatus, Hroutes.
  change (("OK" =? "OK")%string) with true. cbn [Z.eqb Pos.eqb first bind].
  rewrite Hlegs. reflexivity.
Qed.

(** The laptop version returns [None] exactly on a response whose HTTP
    status is not 200 or whose payload status is not OK. *)
Lemma laptop_get_directions_None_iff (resp : response) :
  fst (Laptop.get_directions resp) = Ok None <->
  (status_code resp <> 200%Z \/ status (json resp) <> "OK"%string).
Proof.
  unfold Laptop.get_directions.
  destruct (Z.eqb_spec (status_code resp) 200) as [Hc | Hc].
  - destruct (String.eqb_spec (status (json resp)) "OK") as [Hs | Hs].
    + split; [| intros [H | H]; contradiction].
      cbn [fst]. destruct (routes (json resp)) as [| r rs]; cbn [first bind];
        [discriminate |].
      destruct (legs r); cbn [first bind]; discriminate.
    + split; [right; exact Hs | reflexivity].
  - split; [left; exact Hc | reflexivity].
Qed.

(** ** The loop of the laptop version *)

Section LaptopLoop.

Variable geodesic : coord -> coord -> Q.

(** A pass whose closest step is within 50 metres and carries another
    instruction than the last one announced counts one step more. *)
Lemma laptop_tick_advances
    (st : Laptop.nav) (inp : Laptop.sample) (route_steps : list step)
    (p c : step) (d : Q) :
  Laptop.steps st = Some route_steps ->
  Laptop.get_closest_step geodesic (Laptop.current_location inp) route_steps
    = (Some c, Laptop.Finite d) ->
  d < 50 ->
  Laptop.prev_step st = Some p ->
  html_instructions p <> html_instructions c ->
  Laptop.tick geodesic st inp
  = Next {| Laptop.steps := Some route_steps;
            Laptop.step_idx := S (Laptop.step_idx st);
            Laptop.prev_step := Some c |}
         [CurrentStep c].
Proof.
  intros Hsteps Hclosest Hd Hprev Hneq.
  unfold Laptop.tick. rewrite Hsteps, Hclosest. cbn [Laptop.meters_ltb].
  apply Qltb_lt in Hd. rewrite Hd.
  unfold Laptop.on_arrival. rewrite Hprev, Hsteps.
  apply String.eqb_neq in Hneq. rewrite Hneq. reflexivity.
Qed.

(** C1, as the code has it (laptop version).  On a pass over a route with a
    step, the distance [d] that decides between the arrival branch and the
    off-route branch is the one [get_closest_step] returns: the distance
    between the current location and the end of the nearest step [c].  It
    is at most the distance to the end of the step at the current index. *)
Theorem laptop_tick_measures_nearest_step
    (st : Laptop.nav) (inp : Laptop.sample) (s0 : step) (rest : list step) :
  Laptop.steps st = Some (s0 :: rest) ->
  exists (c : step) (d : Q),
    Laptop.get_closest_step geodesic (Laptop.current_location inp) (s0 :: rest)
      = (Some c, Laptop.Finite d) /\
    In c (s0 :: rest) /\
    d = geodesic (end_location c) (Laptop.current_location inp) /\
    Forall (fun t => d <= geodesic (end_location t) (Laptop.current_location inp))
      (s0 :: rest) /\
    (forall s : step,
        nth_error (s0 :: rest) (Laptop.step_idx st) = Some s ->
        d <= geodesic (end_location s) (Laptop.current_location inp)) /\
    (d < 50 -> Laptop.tick geodesic st inp = Laptop.on_arrival st (Some c)) /\
    (50 <= d -> Laptop.tick geodesic st inp = Laptop.on_off_route st (Some c) inp).
Proof.
  intros Hsteps.
  destruct (closest_step_of_nonempty geodesic (Laptop.current_location inp) s0 rest)
    as (c & d & Hclosest & Hin & Hd & Hall).
  exists c, d. split; [exact Hclosest |]. split; [exact Hin |].
  split; [exact Hd |]. split; [exact Hall |]. split; [| split].
  - intros s Hnth. apply nth_error_In in Hnth.
    rewrite Forall_forall in Hall. apply Hall. exact Hnth.
  - intros Hlt. unfold Laptop.tick. rewrite Hsteps, Hclosest.
    cbn [Laptop.meters_ltb]. apply Qltb_lt in Hlt. rewrite Hlt. reflexivity.
  - intros Hge. unfold Laptop.tick. rewrite Hsteps, Hclosest.
    cbn [Laptop.meters_ltb]. apply Qltb_ge in Hge. rewrite Hge. reflexivity.
Qed.

(** The guard of the loop still holds when the index has reached the length
    of the route. *)
Lemma laptop_guard_at_route_end (st : Laptop.nav) (route_steps : list step) :
  Laptop.steps st = Some route_steps ->
  Laptop.step_idx st = List.length route_steps ->
  Laptop.loop_guard st = Ok true.
Proof.
  intros Hsteps Hidx. unfold Laptop.loop_guard. rewrite Hsteps, Hidx.
  rewrite Nat.leb_refl. reflexivity.
Qed.

(** C3, on the code of [gps_api.py].  On a route of two steps [a] and [b]
    with different instructions, a walker located near the end of [b], then
    near the end of [a], then near the end of [b] again makes the loop
    count 1, 2 and 3: the third pass runs with the index equal to the
    length of the route and takes it past the length. *)
Theorem laptop_index_passes_route_length
    (a b : step) (origin near_a near_b : coord) (d1 d2 d3 : result (option (list step))) :
  html_instructions a <> html_instructions b ->
  geodesic (end_location a) near_a < 50 ->
  geodesic (end_location a) near_a <= geodesic (end_location b) near_a ->
  geodesic (end_location b) near_b < 50 ->
  geodesic (end_location b) near_b < geodesic (end_location a) near_b ->
  fst (Laptop.main geodesic
         {| Laptop.current_location := origin;
            Laptop.directions := Ok (Some [a; b]) |}
         [ {| Laptop.current_location := near_b; Laptop.directions := d1 |};
           {| Laptop.current_location := near_a; Laptop.directions := d2 |};
           {| Laptop.current_location := near_b; Laptop.directions := d3 |} ])
  = Laptop.Finished
      {| Laptop.steps := Some [a; b]; Laptop.step_idx := 3; Laptop.prev_step := Some b |}.
Proof.
  intros Hneq Ha_near Ha_closest Hb_near Hb_closest.
  assert (Hneq' : html_instructions b <> html_instructions a) by congruence.
  assert (Hat_b := closest_of_two_second geodesic near_b a b Hb_closest).
  assert (Hat_a := closest_of_two_first geodesic near_a a b Ha_closest).
  unfold Laptop.main, Laptop.start. cbn [Laptop.directions first].
  cbn [Laptop.loop Laptop.loop_guard Laptop.steps Laptop.step_idx List.length Nat.leb].
  rewrite laptop_tick_advances
    with (route_steps := [a; b]) (p := a) (c := b) (d := geodesic (end_location b) near_b);
    [| reflexivity | exact Hat_b | exact Hb_near | reflexivity | exact Hneq].
  cbn [Laptop.loop Laptop.loop_guard Laptop.steps Laptop.step_idx List.length Nat.leb].
  rewrite laptop_tick_advances
    with (route_steps := [a; b]) (p := b) (c := a) (d := geodesic (end_location a) near_a);
    [| reflexivity | exact Hat_a | exact Ha_near | reflexivity | exact Hneq'].
  cbn [Laptop.loop Laptop.loop_guard Laptop.steps Laptop.step_idx List.length Nat.leb].
  rewrite laptop_tick_advances
    with (route_steps := [a; b]) (p := a) (c := b) (d := geodesic (end_location b) near_b);
    [| reflexivity | exact Hat_b | exact Hb_near | reflexivity | exact Hneq].
  cbn [Laptop.loop Laptop.loop_guard Laptop.steps Laptop.step_idx List.length Nat.leb fst].
  reflexivity.
Qed.

End LaptopLoop.

Lemma laptop_index_passes_route_length_on_grid :
  fst (Laptop.main grid_distance
         {| Laptop.current_location := point 0 (-1 # 1000);
            Laptop.directions := Ok (Some [step_a; step_b]) |}
         [ {| Laptop.current_location := point 0 (1 # 1000); Laptop.directions := Ok None |};
           {| Laptop.current_location := point 0 0; Laptop.directions := Ok None |};
           {| Laptop.current_location := point 0 (1 # 1000); Laptop.directions := Ok None |} ])
  = Laptop.Finished
      {| Laptop.steps := Some [step_a; step_b];
         Laptop.step_idx := 3;
         Laptop.prev_step := Some step_b |}.
Proof.
  apply (@laptop_index_passes_route_length grid_distance
           step_a step_b (point 0 (-1 # 1000)) (point 0 0) (point 0 (1 # 1000))
           (Ok None) (Ok None) (Ok None)).
  - discriminate.
  - reflexivity.
  - discriminate.
  - reflexivity.
  - reflexivity.
Defined.

Lemma laptop_tick_measures_nearest_step_on_grid :
  exists (c : step) (d : Q),
    Laptop.get_closest_step grid_distance (point 0 (1 # 1000)) [step_a; step_b]
      = (Some c, Laptop.Finite d) /\
    In c [step_a; step_b] /\
    d = grid_distance (end_location c) (point 0 (1 # 1000)).
Proof.
  destruct (@laptop_tick_measures_nearest_step grid_distance
              {| Laptop.steps := Some [step_a; step_b];
                 Laptop.step_idx := 0;
                 Laptop.prev_step := Some step_a |}
              {| Laptop.current_location := point 0 (1 # 1000);
                 Laptop.directions := Ok None |}
              step_a [step_b] eq_refl)
    as (c & d & Hclosest & Hin & Hd & _).
  exists c, d. split; [exact Hclosest | split; [exact Hin | exact Hd]].
Defined.

(** Against the wording of the specification, in the laptop version:
    with the index at 0 and the walker at the end of the second step, 100
    metres from the end of the step at index 0, the pass takes the arrival
    branch, on the distance 0 to the second step. *)
Lemma laptop_tick_arrives_far_from_indexed_step :
  let st := {| Laptop.steps := Some [step_a; step_b];
               Laptop.step_idx := 0;
               Laptop.prev_step := Some step_a |} in
  let inp := {| Laptop.current_location := end_location step_b;
                Laptop.directions := Ok None |} in
  nth_error [step_a; step_b] (Laptop.step_idx st) = Some step_a /\
  grid_distance (end_location step_a) (Laptop.current_location inp) == 100 /\
  ~ grid_distance (end_location step_a) (Laptop.current_location inp) < 50 /\
  Laptop.tick grid_distance st inp
  = Next {| Laptop.steps := Some [step_a; step_b];
            Laptop.step_idx := 1;
            Laptop.prev_step := Some step_b |}
         [CurrentStep step_b].
Proof.
  cbv zeta. split; [reflexivity |]. split; [reflexivity |].
  split; [discriminate | reflexivity].
Qed.

(** ** Routes without steps *)

(** C6, as the code has it.  A response with HTTP status 200 and payload
    status OK whose first leg has no step is not rejected: the laptop
    version's [get_directions] returns the empty list.  At the start of a
    session the empty list raises at [steps[0]], in both programs.  On a
    recomputation the laptop version installs it, and a pass over an
    installed route without steps finds no closest step and requests the
    route again. *)
Theorem zero_step_payload_is_not_rejected
    (geodesic : coord -> coord -> Q)
    (resp : response) (r : route) (rs : list route) (l : leg) (ls : list leg) :
  status_code resp = 200%Z ->
  status (json resp) = "OK"%string ->
  routes (json resp) = r :: rs ->
  legs r = l :: ls ->
  leg_steps l = [] ->
  Laptop.get_directions resp = (Ok (Some []), []) /\
  (forall loc : coord,
      Laptop.start {| Laptop.current_location := loc;
                      Laptop.directions := fst (Laptop.get_directions resp) |}
      = Raised IndexError [Display []]) /\
  (forall loc : coord,
      Iphone.start geodesic {| Iphone.current_location := loc;
                               Iphone.directions := Ok (Some []) |}
      = Raised IndexError [Display []]) /\
  (forall (st : Laptop.nav) (closest_step : option step) (loc : coord),
      Laptop.on_off_route st closest_step
        {| Laptop.current_location := loc;
           Laptop.directions := fst (Laptop.get_directions resp) |}
      = Next {| Laptop.steps := Some [];
                Laptop.step_idx := 0;
                Laptop.prev_step := closest_step |}
             [OffRoute; Display []]) /\
  (forall (st : Laptop.nav) (inp : Laptop.sample),
      Laptop.steps st = Some [] ->
      Laptop.step_idx st = 0%nat ->
      Laptop.loop_guard st = Ok true /\
      Laptop.tick geodesic st inp = Laptop.on_off_route st None inp).
Proof.
  intros Hcode Hstatus Hroutes Hlegs Hsteps.
  assert (Hget : Laptop.get_directions resp = (Ok (Some []), [])).
  { rewrite (laptop_get_directions_returns_steps resp Hcode Hstatus Hroutes Hlegs).
    rewrite Hsteps. reflexivity. }
  split; [exact Hget |]. rewrite Hget. cbn [fst].
  split; [reflexivity |]. split; [reflexivity |]. split; [reflexivity |].
  intros st inp Hempty Hidx. split.
  - unfold Laptop.loop_guard. rewrite Hempty, Hidx. reflexivity.
  - unfold Laptop.tick. rewrite Hempty. reflexivity.
Qed.

Lemma zero_step_payload_is_not_rejected_on_grid :
  Laptop.get_directions (ok_response []) = (Ok (Some []), []).
Proof.
  apply (@zero_step_payload_is_not_rejected grid_distance (ok_response [])
           {| legs := [ {| leg_steps := [] |} ] |} [] {| leg_steps := [] |} []);
    reflexivity.
Defined.

(** Against the wording of the specification: the payload without
    steps yields a route, which is not [None], and a pass of the laptop
    version that recomputes the route installs it. *)
Lemma zero_step_route_is_installed :
  fst (Laptop.get_directions (ok_response [])) = Ok (Some []) /\
  Laptop.tick grid_distance
    {| Laptop.steps := Some [step_a; step_b];
       Laptop.step_idx := 0;
       Laptop.prev_step := Some step_a |}
    {| Laptop.current_location := point 0 (5 # 1000);
       Laptop.directions := fst (Laptop.get_directions (ok_response [])) |}
  = Next {| Laptop.steps := Some [];
            Laptop.step_idx := 0;
            Laptop.prev_step := Some step_b |}
         [OffRoute; Display []].
Proof.
  split; reflexivity.
Qed.

(** ** The loop of the phone version *)

Section IphoneLoop.

Variable geodesic_distance : coord -> coord -> Q.
Variable eps : Q.

(** The three branches of a pass, by the distance it measures: the one
    between the current location and the end of the first step of the
    route, whatever the index. *)
Lemma iphone_tick_branches
    (st : Iphone.nav) (inp : Iphone.sample) (s0 : step) (rest : list step) :
  Iphone.steps st = s0 :: rest ->
  let d := geodesic_distance (Iphone.current_location inp) (end_location s0) in
  (d < eps ->
   Iphone.tick geodesic_distance eps st inp
   = Next (Iphone.set_prev_distance d (fst (Iphone.on_arrival st)))
          (snd (Iphone.on_arrival st))) /\
  (eps <= d -> Iphone.prev_distance st < d ->
   Iphone.tick geodesic_distance eps st inp
   = match Iphone.on_deviation geodesic_distance st inp with
     | Next st' out => Next (Iphone.set_prev_distance d st') out
     | other => other
     end) /\
  (eps <= d -> d <= Iphone.prev_distance st ->
   Iphone.tick geodesic_distance eps st inp = Next (Iphone.set_prev_distance d st) []).
Proof.
  intros Hsteps d. unfold Iphone.tick. rewrite Hsteps. cbn [first]. fold d.
  split; [| split].
  - intros Hlt. apply Qltb_lt in Hlt. rewrite Hlt.
    destruct (Iphone.on_arrival st). reflexivity.
  - intros Hge Hdev. apply Qltb_ge in Hge. apply Qltb_lt in Hdev.
    rewrite Hge, Hdev.
    destruct (Iphone.on_deviation geodesic_distance st inp); reflexivity.
  - intros Hge Hnear. apply Qltb_ge in Hge. apply Qltb_ge in Hnear.
    rewrite Hge, Hnear. reflexivity.
Qed.

(** The deviation branch, by the distance the pass measures (the one to
    the end of the first step): the off-route message is printed exactly
    once and the index is not advanced; the route is requested again in the
    same pass, and the pass goes on only with a route that has a step. *)
Lemma iphone_deviation_reports_once_and_restarts
    (st : Iphone.nav) (inp : Iphone.sample) (s0 : step) (rest : list step) :
  Iphone.steps st = s0 :: rest ->
  eps <= geodesic_distance (Iphone.current_location inp) (end_location s0) ->
  Iphone.prev_distance st
    < geodesic_distance (Iphone.current_location inp) (end_location s0) ->
  count_off_route (printed (Iphone.tick geodesic_distance eps st inp)) = 1%nat /\
  match Iphone.tick geodesic_distance eps st inp with
  | Next st' _ =>
      Iphone.directions inp = Ok (Some (Iphone.steps st')) /\
      Iphone.steps st' <> [] /\
      Iphone.step_idx st' = 0%nat
  | Return _ => Iphone.directions inp = Ok None
  | Raised e _ =>
      Iphone.directions inp = Raise e \/
      (Iphone.directions inp = Ok (Some []) /\ e = IndexError)
  end.
Proof.
  intros Hsteps Hge Hdev.
  destruct (iphone_tick_branches st inp Hsteps) as (_ & Hbranch & _).
  rewrite (Hbranch Hge Hdev). unfold Iphone.on_deviation.
  destruct (Iphone.directions inp) as [[[| n0 ns] |] | e]; cbn.
  - split; [reflexivity | right; split; reflexivity].
  - split; [reflexivity |]. split; [reflexivity |]. split; [discriminate | reflexivity].
  - split; reflexivity.
  - split; [reflexivity | left; reflexivity].
Qed.

(** While the guard holds, a pass leaves the index within the length of
    the route it leaves installed. *)
Lemma iphone_tick_index_bound
    (st st' : Iphone.nav) (inp : Iphone.sample) (out : list output) :
  Iphone.loop_guard st = true ->
  Iphone.tick geodesic_distance eps st inp = Next st' out ->
  (Iphone.step_idx st' <= List.length (Iphone.steps st'))%nat.
Proof.
  unfold Iphone.loop_guard, Iphone.tick. intros Hguard.
  apply Nat.ltb_lt in Hguard.
  destruct (Iphone.steps st) as [| s0 rest] eqn:Hsteps; cbn [first]; [discriminate |].
  destruct (Qltb _ eps).
  - cbn. intros H. injection H as <- _. cbn. rewrite Hsteps. exact Hguard.
  - destruct (Qltb (Iphone.prev_distance st) _).
    + unfold Iphone.on_deviation.
      destruct (Iphone.directions inp) as [[[| n0 ns] |] | e]; cbn; try discriminate.
      intros H. injection H as <- _. cbn. lia.
    + intros H. injection H as <- _. cbn. rewrite Hsteps. cbn in Hguard |- *. lia.
Qed.

(** The loop of the phone version keeps the index within the route: it
    waits for a sample with the index below the length, and it is left
    with the index equal to the length. *)
Lemma iphone_loop_index_bound (inps : list Iphone.sample) :
  forall st : Iphone.nav,
    (Iphone.step_idx st <= List.length (Iphone.steps st))%nat ->
    match fst (Iphone.loop geodesic_distance eps st inps) with
    | Iphone.Looping st' => (Iphone.step_idx st' < List.length (Iphone.steps st'))%nat
    | Iphone.Finished st' => Iphone.step_idx st' = List.length (Iphone.steps st')
    | Iphone.Returned => True
    | Iphone.Crashed _ => True
    end.
Proof.
  induction inps as [| inp rest IH]; intros st Hle.
  - cbn [Iphone.loop]. destruct (Iphone.loop_guard st) eqn:Hguard; cbn [fst].
    + apply Nat.ltb_lt. exact Hguard.
    + apply Nat.ltb_ge in Hguard. lia.
  - cbn [Iphone.loop]. destruct (Iphone.loop_guard st) eqn:Hguard.
    + destruct (Iphone.tick geodesic_distance eps st inp) as [st' out | out | e out] eqn:Htick;
        cbn [fst]; try exact I.
      assert (Hle' := iphone_tick_index_bound st inp Hguard Htick).
      specialize (IH st' Hle').
      destruct (Iphone.loop geodesic_distance eps st' rest) as [r out']. exact IH.
    + cbn [fst]. apply Nat.ltb_ge in Hguard. lia.
Qed.

(** X18.  So does a whole session of the phone version, from its first
    fetch on: the index never passes the length of the installed route. *)
Lemma iphone_call_index_bound (first_inp : Iphone.sample) (inps : list Iphone.sample) :
  match fst (Iphone.call geodesic_distance eps first_inp inps) with
  | Iphone.Looping st' => (Iphone.step_idx st' < List.length (Iphone.steps st'))%nat
  | Iphone.Finished st' => Iphone.step_idx st' = List.length (Iphone.steps st')
  | Iphone.Returned => True
  | Iphone.Crashed _ => True
  end.
Proof.
  unfold Iphone.call, Iphone.start.
  destruct (Iphone.directions first_inp) as [[[| n0 ns] |] | e]; cbn [first fst];
    try exact I.
  match goal with
  | |- context [Iphone.loop _ _ ?st inps] =>
      assert (Hbound := iphone_loop_index_bound inps st (Nat.le_0_l _));
      destruct (Iphone.loop geodesic_distance eps st inps) as [r out']
  end.
  exact Hbound.
Qed.

(** Once a step has been counted, [prev_distance] is below [eps]: the
    index is above 0 only after a pass that measured less than [eps], and
    the passes that follow either measure less than [eps] again or take the
    deviation branch.  The initial state, with the index at 0, satisfies
    this. *)
Lemma iphone_tick_prev_distance_below_eps
    (st st' : Iphone.nav) (inp : Iphone.sample) (out : list output) :
  ((1 <= Iphone.step_idx st)%nat -> Iphone.prev_distance st < eps) ->
  Iphone.tick geodesic_distance eps st inp = Next st' out ->
  (1 <= Iphone.step_idx st')%nat -> Iphone.prev_distance st' < eps.
Proof.
  intros Hinv. unfold Iphone.tick.
  destruct (Iphone.steps st) as [| s0 rest]; cbn [first]; [discriminate |].
  destruct (Qltb _ eps) eqn:Hnear.
  - cbn. intros H. injection H as <- _. cbn. intros _. apply Qltb_lt. exact Hnear.
  - destruct (Qltb (Iphone.prev_distance st) _) eqn:Hdev.
    + unfold Iphone.on_deviation.
      destruct (Iphone.directions inp) as [[[| n0 ns] |] | e]; cbn; try discriminate.
      intros H. injection H as <- _. cbn. lia.
    + intros H. injection H as <- _. cbn. intros Hidx.
      apply Qltb_ge in Hnear. apply Qltb_ge in Hdev. specialize (Hinv Hidx).
      exfalso. apply (Qlt_irrefl eps).
      apply Qle_lt_trans with (y := Iphone.prev_distance st); [| exact Hinv].
      apply Qle_trans with (2 := Hdev). exact Hnear.
Qed.


End IphoneLoop.


(** The state of that pass is the one a session is in after its first
    pass, when it started on the route of two steps with the walker at the
    end of the first step and the walker has not moved: the index is 1, the
    target is the second step, 100 metres away, and [prev_distance] is 0.
    The second pass then counts the second step as reached. *)
Example iphone_call_counts_both_steps_at_the_first :
  let at_a := {| Iphone.current_location := end_location step_a;
                 Iphone.directions := Ok None |} in
  let first_inp := {| Iphone.current_location := end_location step_a;
                      Iphone.directions := Ok (Some [step_a; step_b]) |} in
  Iphone.call grid_distance 3 first_inp [at_a]
  = (Iphone.Looping
       {| Iphone.steps := [step_a; step_b];
          Iphone.step_idx := 1;
          Iphone.prev_distance :=
            grid_distance (end_location step_a) (end_location step_a) |},
     [Display [step_a; step_b]; CurrentStep step_b]) /\
  grid_distance (end_location step_a) (end_location step_a) == 0 /\
  grid_distance (end_location step_a) (end_location step_b) == 100 /\
  Iphone.call grid_distance 3 first_inp [at_a; at_a]
  = (Iphone.Finished
       {| Iphone.steps := [step_a; step_b];
          Iphone.step_idx := 2;
          Iphone.prev_distance :=
            grid_distance (end_location step_a) (end_location step_a) |},
     [Display [step_a; step_b]; CurrentStep step_b]).
Proof.
  cbv zeta. split; [reflexivity |]. split; [reflexivity |]. split; reflexivity.
Qed.

(** With the index at 1 and the walker at the end of the step at index 1,
    the pass of the phone version does not count an arrival: it measures
    the 100 metres to the end of the first step, and reports a deviation. *)
Example iphone_tick_measures_first_step_at_index_1 :
  let st := {| Iphone.steps := [step_a; step_b];
               Iphone.step_idx := 1;
               Iphone.prev_distance :=
                 grid_distance (end_location step_a) (end_location step_a) |} in
  let inp := {| Iphone.current_location := end_location step_b;
                Iphone.directions := Ok None |} in
  grid_distance (Iphone.current_location inp) (end_location step_b) == 0 /\
  grid_distance (Iphone.current_location inp) (end_location step_a) == 100 /\
  Iphone.tick grid_distance 3 st inp = Return [OffRoute].
Proof.
  cbv zeta. split; [reflexivity |]. split; reflexivity.
Qed.

(** X19.  With [get_directions] as it is written, [__call__] returns or
    raises before its loop, whatever the response and the samples. *)
Lemma iphone_call_stops_at_first_fetch
    (geodesic_distance : coord -> coord -> Q) (eps : Q) (h : float)
    (resp : response) (loc : coord) (inps : list Iphone.sample) :
  match fst (Iphone.call geodesic_distance eps
               {| Iphone.current_location := loc;
                  Iphone.directions := fst (Iphone.get_directions h resp) |}
               inps) with
  | Iphone.Returned => True
  | Iphone.Crashed _ => True
  | _ => False
  end.
Proof.
  unfold Iphone.call, Iphone.start. cbn [Iphone.directions].
  assert (Hnone := iphone_get_directions_never_steps h resp).
  destruct (fst (Iphone.get_directions h resp)) as [[new_steps |] | e];
    [contradiction | exact I | exact I].
Qed.

(** ** Installing a route *)




(** A session of the laptop version that reaches that pass: it starts on
    the route of two steps, announces the second step with the index at 1,
    and then, 400 metres from the nearest step, is given a new route by
    [get_directions]: the index is 0 again. *)
Example laptop_main_installs_at_index_0 :
  Laptop.main grid_distance
    {| Laptop.current_location := point 0 (-1 # 1000);
       Laptop.directions := fst (Laptop.get_directions (ok_response [step_a; step_b])) |}
    [ {| Laptop.current_location := point 0 (1 # 1000); Laptop.directions := Ok None |};
      {| Laptop.current_location := point 0 (5 # 1000);
         Laptop.directions := fst (Laptop.get_directions (ok_response [step_c])) |} ]
  = (Laptop.Looping
       {| Laptop.steps := Some [step_c];
          Laptop.step_idx := 0;
          Laptop.prev_step := Some step_b |},
     [Display [step_a; step_b]; CurrentStep step_a; CurrentStep step_b;
      OffRoute; Display [step_c]]).
Proof. reflexivity. Qed.

(** ** Geo math over the real numbers *)

Section RealHaversine.

Local Open Scope R_scope.

Lemma radians_of_latitude (deg : R) :
  -90 <= deg <= 90 -> - (PI / 2) <= GeoMath.radians deg <= PI / 2.
Proof.
  intros [Hlo Hhi]. unfold GeoMath.radians. assert (Hpi := PI_RGT_0).
  split.
  - replace (- (PI / 2)) with ((-90) * PI / 180) by field.
    unfold Rdiv. apply Rmult_le_compat_r; [lra |]. apply Rmult_le_compat_r; lra.
  - replace (PI / 2) with (90 * PI / 180) by field.
    unfold Rdiv. apply Rmult_le_compat_r; [lra |]. apply Rmult_le_compat_r; lra.
Qed.

Lemma sin_half_sqr (x : R) : Rsqr (sin (x / 2)) = (1 - cos x) / 2.
Proof.
  replace x with (2 * (x / 2)) at 2 by field.
  rewrite cos_2a_sin. unfold Rsqr. field.
Qed.

(** Over the reals the quantity [a] lies between 0 and 1 when both
    latitudes are between -90 and 90 degrees. *)
Lemma haversine_a_between_0_and_1 (coord_1 coord_2 : R * R) :
  -90 <= fst coord_1 <= 90 ->
  -90 <= fst coord_2 <= 90 ->
  0 <= GeoMath.haversine_a coord_1 coord_2 <= 1.
Proof.
  intros H1 H2. unfold GeoMath.haversine_a. cbv zeta. cbn [fst snd].
  apply radians_of_latitude in H1. apply radians_of_latitude in H2.
  set (p1 := GeoMath.radians (fst coord_1)) in *.
  set (p2 := GeoMath.radians (fst coord_2)) in *.
  set (half := (GeoMath.radians (snd coord_2) - GeoMath.radians (snd coord_1)) / 2).
  set (u := Rsqr (sin half)).
  assert (Hu : 0 <= u <= 1).
  { unfold u. split; [apply Rle_0_sqr |].
    assert (H := sin2_cos2 half). assert (H' := Rle_0_sqr (cos half)). lra. }
  assert (Hc1 : 0 <= cos p1) by (apply cos_ge_0; lra).
  assert (Hc2 : 0 <= cos p2) by (apply cos_ge_0; lra).
  assert (Hcc : 0 <= cos p1 * cos p2) by (apply Rmult_le_pos; assumption).
  assert (Hccu : 0 <= cos p1 * cos p2 * u <= cos p1 * cos p2).
  { split; [apply Rmult_le_pos; lra |].
    rewrite <- (Rmult_1_r (cos p1 * cos p2)) at 2.
    apply Rmult_le_compat_l; lra. }
  rewrite sin_half_sqr.
  assert (Hm := cos_minus p2 p1). assert (Hp := cos_plus p2 p1).
  assert (Hb1 := COS_bound (p2 - p1)). assert (Hb2 := COS_bound (p2 + p1)).
  split; [lra |].
  assert (cos p1 * cos p2 = (cos (p2 - p1) + cos (p2 + p1)) / 2)
    by (rewrite Hm, Hp; field).
  lra.
Qed.

(** [math.atan2] of two numbers that are not negative is an angle of the
    first quadrant. *)
Lemma math_atan2_first_quadrant (y x : R) :
  0 <= y -> 0 <= x -> 0 <= GeoMath.math_atan2 y x <= PI / 2.
Proof.
  intros Hy Hx. unfold GeoMath.math_atan2. assert (Hpi := PI_RGT_0).
  destruct (Rlt_dec 0 x) as [Hpos | Hnpos].
  - assert (Hq : 0 <= y / x).
    { unfold Rdiv. apply Rmult_le_pos; [exact Hy |].
      apply Rlt_le, Rinv_0_lt_compat, Hpos. }
    destruct (atan_bound (y / x)) as [_ Hhi].
    split; [| lra].
    destruct Hq as [Hq | <-]; [| rewrite atan_0; lra].
    apply atan_increasing in Hq. rewrite atan_0 in Hq. lra.
  - destruct (Rlt_dec x 0) as [Hneg | _]; [lra |].
    destruct (Rlt_dec 0 y) as [_ | _]; [lra |].
    destruct (Rlt_dec y 0) as [Hyneg | _]; lra.
Qed.

(** Over the reals [geodesic_distance] raises for no two coordinates with
    latitudes between -90 and 90 degrees, antipodal ones included, and its
    value lies between 0 and half the circumference. *)
Lemma geodesic_distance_defined_over_reals (c1 c2 : coord) :
  (-90 <= lat c1 /\ lat c1 <= 90)%Q ->
  (-90 <= lat c2 /\ lat c2 <= 90)%Q ->
  exists d : R,
    GeoMath.geodesic_distance (GeoMath.to_reals c1) (GeoMath.to_reals c2) = Ok d /\
    0 <= d <= GeoMath.earth_radius * PI.
Proof.
  intros [Hlo1 Hhi1] [Hlo2 Hhi2].
  apply Qle_Rle in Hlo1, Hhi1, Hlo2, Hhi2.
  assert (Hm90 : Q2R (-90) = -90) by (unfold Q2R; cbn; lra).
  assert (H90 : Q2R 90 = 90) by (unfold Q2R; cbn; lra).
  rewrite Hm90 in Hlo1, Hlo2. rewrite H90 in Hhi1, Hhi2.
  destruct (haversine_a_between_0_and_1 (GeoMath.to_reals c1) (GeoMath.to_reals c2))
    as [Ha0 Ha1]; [cbn; lra | cbn; lra |].
  unfold GeoMath.geodesic_distance. cbv zeta.
  set (a := GeoMath.haversine_a (GeoMath.to_reals c1) (GeoMath.to_reals c2)) in *.
  unfold GeoMath.math_sqrt.
  destruct (Rle_lt_dec 0 a) as [_ | Hneg]; [| lra]. cbn [bind].
  destruct (Rle_lt_dec 0 (1 - a)) as [_ | Hneg]; [| lra]. cbn [bind].
  eexists. split; [reflexivity |].
  destruct (math_atan2_first_quadrant (sqrt_pos a) (sqrt_pos (1 - a))) as [Hc0 Hc1].
  assert (Hr : 0 < GeoMath.earth_radius) by (unfold GeoMath.earth_radius; lra).
  split.
  - apply Rmult_le_pos; lra.
  - apply Rmult_le_compat_l; lra.
Qed.

End RealHaversine.

(** * Further properties of the two programs *)

(** ** The names of the bearing resolver *)

(** X4.  [get_turn_direction] raises [KeyError] exactly on the names that
    are not among the eight the rewrite tries; on those eight it returns a
    turn word. *)
Theorem get_turn_direction_KeyError_iff (h : float) (name : string) :
  (Iphone.get_turn_direction h name = Raise KeyError <->
   ~ In name Iphone.cardinal_order) /\
  (In name Iphone.cardinal_order ->
   Iphone.get_turn_direction h name = Ok "right"%string \/
   Iphone.get_turn_direction h name = Ok "left"%string).
Proof.
  assert (Hknown : In name Iphone.cardinal_order ->
                   Iphone.get_turn_direction h name = Ok "right"%string \/
                   Iphone.get_turn_direction h name = Ok "left"%string).
  { intros Hin. apply cardinal_order_names in Hin. apply in_map_iff in Hin.
    destruct Hin as (c & <- & _). apply get_turn_direction_two_words. }
  split; [| exact Hknown].
  split.
  - intros Hraise Hin. destruct (Hknown Hin) as [H | H]; congruence.
  - intros Hnot. unfold Iphone.get_turn_direction, Iphone.cardinal_directions.
    cbn [dict_get].
    repeat match goal with
           | |- context [String.eqb ?k name] =>
               destruct (String.eqb_spec k name) as [E | _];
               [exfalso; apply Hnot; rewrite <- E; simpl; tauto |]
           end.
    reflexivity.
Qed.

(** ** The instruction rewrite on whole routes *)

(** X5.  [convert_to_turn_directions] raises for no heading and no list of
    steps, and changes nothing but the instruction texts: the result has
    the same number of steps, with the same distance labels, start
    locations and end locations, in the same order. *)
Theorem convert_to_turn_directions_keeps_route (h : float) (steps : list step) :
  exists steps' : list step,
    Iphone.convert_to_turn_directions h steps = Ok steps' /\
    List.length steps' = List.length steps /\
    map distance_text steps' = map distance_text steps /\
    map start_location steps' = map start_location steps /\
    map end_location steps' = map end_location steps.
Proof.
  unfold Iphone.convert_to_turn_directions.
  induction steps as [| s rest (rest' & IH & Hlen & Hdist & Hstart & Hend)];
    cbn [for_each].
  - exists []. repeat split; reflexivity.
  - destruct (rewrite_instruction_total h
                [Northeast; Northwest; Southeast; Southwest; East; West; North; South]
                (html_instructions s)) as [text Htext].
    change (map cardinal_name _) with Iphone.cardinal_order in Htext.
    rewrite Htext. cbn [bind]. rewrite IH. cbn [bind].
    exists (set_html_instructions text s :: rest').
    split; [reflexivity |]. cbn [List.length map set_html_instructions
                                   distance_text start_location end_location].
    rewrite Hlen, Hdist, Hstart, Hend. repeat split; reflexivity.
Qed.

(** A text in which none of the names [dirs] occurs is returned as it is. *)
Lemma rewrite_instruction_without_names (h : float) (text : string) (dirs : list string) :
  Forall (fun name => str_contains name text = false) dirs ->
  Iphone.rewrite_instruction dirs h text = Ok text.
Proof.
  induction 1 as [| name rest Hname _ IH]; cbn [Iphone.rewrite_instruction].
  - reflexivity.
  - rewrite Hname. exact IH.
Qed.

(** X6.  Steps whose instructions hold none of the eight names come out of
    [convert_to_turn_directions] unchanged, whatever the heading. *)
Theorem convert_to_turn_directions_plain_steps (h : float) (steps : list step) :
  Forall
    (fun s =>
       Forall (fun name => str_contains name (html_instructions s) = false)
         Iphone.cardinal_order)
    steps ->
  Iphone.convert_to_turn_directions h steps = Ok steps.
Proof.
  unfold Iphone.convert_to_turn_directions.
  induction 1 as [| s rest Hs _ IH]; cbn [for_each].
  - reflexivity.
  - rewrite (@rewrite_instruction_without_names h _ _ Hs). cbn [bind].
    rewrite IH. cbn [bind]. destruct s. reflexivity.
Qed.

Lemma convert_to_turn_directions_plain_step_b :
  Iphone.convert_to_turn_directions 90%float [step_b; step_b] = Ok [step_b; step_b].
Proof.
  apply (@convert_to_turn_directions_plain_steps 90%float [step_b; step_b]).
  repeat constructor.
Defined.

(** ** Sessions of the phone version *)

Lemma skipn_nth_error_cons {A : Type} (l : list A) :
  forall (n : nat) (x : A), nth_error l n = Some x -> skipn n l = x :: skipn (S n) l.
Proof.
  induction l as [| y l IH]; intros [| n] x H; try discriminate H.
  - injection H as ->. reflexivity.
  - cbn [nth_error] in H. cbn [skipn]. apply IH. exact H.
Qed.

Section IphoneSessions.

Variable geodesic_distance : coord -> coord -> Q.
Variable eps : Q.

(** A pass within [eps] of the end of the first step counts one step more
    and announces the step at the new index, if there is one. *)
Lemma iphone_tick_arrival
    (st : Iphone.nav) (inp : Iphone.sample) (s0 : step) (rest : list step) :
  Iphone.steps st = s0 :: rest ->
  geodesic_distance (Iphone.current_location inp) (end_location s0) < eps ->
  exists d : Q,
    Iphone.tick geodesic_distance eps st inp
    = Next {| Iphone.steps := Iphone.steps st;
              Iphone.step_idx := S (Iphone.step_idx st);
              Iphone.prev_distance := d |}
           (map CurrentStep
              (firstn 1 (skipn (S (Iphone.step_idx st)) (Iphone.steps st)))).
Proof.
  intros Hsteps Hnear.
  destruct (iphone_tick_branches geodesic_distance eps st inp Hsteps) as (Harr & _).
  rewrite (Harr Hnear). eexists. unfold Iphone.on_arrival, Iphone.set_prev_distance.
  cbn [fst snd Iphone.steps Iphone.step_idx]. f_equal.
  destruct (S (Iphone.step_idx st) <? List.length (Iphone.steps st))%nat eqn:Hlt.
  - apply Nat.ltb_lt in Hlt.
    destruct (nth_error (Iphone.steps st) (S (Iphone.step_idx st))) as [x |] eqn:Hnth.
    + rewrite (skipn_nth_error_cons _ _ Hnth). reflexivity.
    + apply nth_error_None in Hnth. lia.
  - apply Nat.ltb_ge in Hlt. rewrite skipn_all2 by exact Hlt. reflexivity.
Qed.

(** X10.  The loop measures to the end of the first step whatever the
    index: a walker who stays within [eps] of that end is counted through
    the whole route, one step per pass.  With at least as many samples as
    steps are left, the loop is left with the index at the length of the
    route, after announcing each of the steps after the current one once,
    in order. *)
Theorem iphone_loop_near_first_step_finishes
    (s0 : step) (rest : list step) (inps : list Iphone.sample) :
  forall st : Iphone.nav,
    Iphone.steps st = s0 :: rest ->
    (Iphone.step_idx st <= List.length (Iphone.steps st))%nat ->
    Forall
      (fun inp =>
         geodesic_distance (Iphone.current_location inp) (end_location s0) < eps)
      inps ->
    (List.length (Iphone.steps st) - Iphone.step_idx st <= List.length inps)%nat ->
    exists st' : Iphone.nav,
      Iphone.loop geodesic_distance eps st inps
      = (Iphone.Finished st',
         map CurrentStep (skipn (S (Iphone.step_idx st)) (Iphone.steps st))) /\
      Iphone.steps st' = Iphone.steps st /\
      Iphone.step_idx st' = List.length (Iphone.steps st).
Proof.
  induction inps as [| inp inps' IH]; intros st Hsteps Hle Hnear Hlen.
  - cbn [List.length] in Hlen. cbn [Iphone.loop]. unfold Iphone.loop_guard.
    assert (Hidx : Iphone.step_idx st = List.length (Iphone.steps st)) by lia.
    rewrite Hidx, Nat.ltb_irrefl. exists st.
    rewrite skipn_all2 by lia. repeat split. exact Hidx.
  - cbn [Iphone.loop]. unfold Iphone.loop_guard.
    destruct (Iphone.step_idx st <? List.length (Iphone.steps st))%nat eqn:Hguard.
    + apply Nat.ltb_lt in Hguard.
      inversion Hnear as [| ? ? Hnear1 Hnear']; subst.
      destruct (iphone_tick_arrival st inp Hsteps Hnear1) as [d Htick].
      rewrite Htick.
      destruct (IH {| Iphone.steps := Iphone.steps st;
                      Iphone.step_idx := S (Iphone.step_idx st);
                      Iphone.prev_distance := d |})
        as (st' & Hloop & Hsteps' & Hidx').
      * exact Hsteps.
      * cbn. lia.
      * exact Hnear'.
      * cbn in Hlen |- *. lia.
      * rewrite Hloop. cbn [Iphone.steps Iphone.step_idx] in *.
        exists st'. split; [| split; assumption].
        f_equal. rewrite <- map_app. f_equal.
        destruct (skipn (S (Iphone.step_idx st)) (Iphone.steps st)) as [| x l] eqn:Hskip.
        -- cbn [firstn app].
           assert (Hall : (List.length (Iphone.steps st) <= S (Iphone.step_idx st))%nat).
           { assert (Hl := length_skipn (S (Iphone.step_idx st)) (Iphone.steps st)).
             rewrite Hskip in Hl. cbn in Hl. lia. }
           apply skipn_all2. lia.
        -- cbn [firstn app]. f_equal.
           change (S (S (Iphone.step_idx st))) with (1 + S (Iphone.step_idx st))%nat.
           rewrite <- skipn_skipn, Hskip. reflexivity.
    + apply Nat.ltb_ge in Hguard.
      assert (Hidx : Iphone.step_idx st = List.length (Iphone.steps st)) by lia.
      exists st. rewrite skipn_all2 by lia. repeat split. exact Hidx.
Qed.

(** A pass of a walker who is not within [eps] and not farther than
    before prints nothing and keeps route and index. *)
Lemma iphone_tick_no_change
    (st : Iphone.nav) (inp : Iphone.sample) (s0 : step) (rest : list step) :
  Iphone.steps st = s0 :: rest ->
  eps <= geodesic_distance (Iphone.current_location inp) (end_location s0) ->
  geodesic_distance (Iphone.current_location inp) (end_location s0)
    <= Iphone.prev_distance st ->
  Iphone.tick geodesic_distance eps st inp
  = Next (Iphone.set_prev_distance
            (geodesic_distance (Iphone.current_location inp) (end_location s0)) st)
         [].
Proof.
  intros Hsteps Hge Hle.
  destruct (iphone_tick_branches geodesic_distance eps st inp Hsteps) as (_ & _ & H).
  exact (H Hge Hle).
Qed.

(** X11.  While the walker comes closer to the end of the first step, or
    stays where they are, without coming within [eps], the loop prints
    nothing, requests no route and keeps route and index. *)
Theorem iphone_loop_silent_while_approaching
    (s0 : step) (rest : list step) (inps : list Iphone.sample) :
  forall st : Iphone.nav,
    Iphone.steps st = s0 :: rest ->
    (Iphone.step_idx st < List.length (Iphone.steps st))%nat ->
    approaching eps (Iphone.prev_distance st)
      (map (fun inp =>
              geodesic_distance (Iphone.current_location inp) (end_location s0))
         inps) ->
    exists st' : Iphone.nav,
      Iphone.loop geodesic_distance eps st inps = (Iphone.Looping st', []) /\
      Iphone.steps st' = Iphone.steps st /\
      Iphone.step_idx st' = Iphone.step_idx st.
Proof.
  induction inps as [| inp inps' IH]; intros st Hsteps Hguard Happ.
  - cbn [Iphone.loop]. unfold Iphone.loop_guard.
    apply Nat.ltb_lt in Hguard. rewrite Hguard.
    exists st. repeat split.
  - cbn [map approaching] in Happ. destruct Happ as (Hge & Hle & Happ).
    cbn [Iphone.loop]. unfold Iphone.loop_guard.
    assert (Hguard' := Hguard). apply Nat.ltb_lt in Hguard'. rewrite Hguard'.
    rewrite (iphone_tick_no_change st inp Hsteps Hge Hle).
    destruct (IH (Iphone.set_prev_distance
                    (geodesic_distance (Iphone.current_location inp) (end_location s0))
                    st))
      as (st' & Hloop & Hsteps' & Hidx'); [exact Hsteps | exact Hguard | exact Happ |].
    rewrite Hloop. exists st'. repeat split; assumption.
Qed.

End IphoneSessions.

Lemma iphone_loop_near_first_step_finishes_on_grid :
  exists st' : Iphone.nav,
    Iphone.loop grid_distance 3
      {| Iphone.steps := [step_a; step_b; step_c];
         Iphone.step_idx := 0;
         Iphone.prev_distance := 100 |}
      [ {| Iphone.current_location := point 0 0; Iphone.directions := Ok None |};
        {| Iphone.current_location := point 0 0; Iphone.directions := Ok None |};
        {| Iphone.current_location := point 0 0; Iphone.directions := Ok None |} ]
    = (Iphone.Finished st', [CurrentStep step_b; CurrentStep step_c]) /\
    Iphone.steps st' = [step_a; step_b; step_c] /\
    Iphone.step_idx st' = 3%nat.
Proof.
  apply (@iphone_loop_near_first_step_finishes grid_distance 3 step_a [step_b; step_c]
           [ {| Iphone.current_location := point 0 0; Iphone.directions := Ok None |};
             {| Iphone.current_location := point 0 0; Iphone.directions := Ok None |};
             {| Iphone.current_location := point 0 0; Iphone.directions := Ok None |} ]
           {| Iphone.steps := [step_a; step_b; step_c];
              Iphone.step_idx := 0;
              Iphone.prev_distance := 100 |}).
  - reflexivity.
  - cbn. lia.
  - repeat constructor.
  - cbn. lia.
Defined.

Lemma iphone_loop_silent_while_approaching_on_grid :
  exists st' : Iphone.nav,
    Iphone.loop grid_distance 3
      {| Iphone.steps := [step_a; step_b];
         Iphone.step_idx := 0;
         Iphone.prev_distance := 100 |}
      [ {| Iphone.current_location := point 0 (-8 # 10000); Iphone.directions := Ok None |};
        {| Iphone.current_location := point 0 (-5 # 10000); Iphone.directions := Ok None |};
        {| Iphone.current_location := point 0 (-5 # 10000); Iphone.directions := Ok None |} ]
    = (Iphone.Looping st', []) /\
    Iphone.steps st' = [step_a; step_b] /\
    Iphone.step_idx st' = 0%nat.
Proof.
  apply (@iphone_loop_silent_while_approaching grid_distance 3 step_a [step_b]
           [ {| Iphone.current_location := point 0 (-8 # 10000); Iphone.directions := Ok None |};
             {| Iphone.current_location := point 0 (-5 # 10000); Iphone.directions := Ok None |};
             {| Iphone.current_location := point 0 (-5 # 10000); Iphone.directions := Ok None |} ]
           {| Iphone.steps := [step_a; step_b];
              Iphone.step_idx := 0;
              Iphone.prev_distance := 100 |}).
  - reflexivity.
  - cbn. lia.
  - cbn. repeat split; discriminate.
Defined.

(** ** Sessions of the laptop version *)

Section LaptopSessions.

Variable geodesic : coord -> coord -> Q.

(** The candidate the loop of [get_closest_step] ends with is the first
    step at the smallest distance: the steps before it are strictly
    farther. *)
Lemma closest_from_first_minimum (loc : coord) (steps : list step) :
  forall (seen_before seen_after : list step) (c0 c : step) (d0 d : Q),
    d0 = geodesic (end_location c0) loc ->
    Forall (fun t => d0 < geodesic (end_location t) loc) seen_before ->
    Forall (fun t => d0 <= geodesic (end_location t) loc) seen_after ->
    Laptop.closest_from geodesic loc steps (Some c0) (Laptop.Finite d0)
      = (Some c, Laptop.Finite d) ->
    exists before after : list step,
      seen_before ++ c0 :: seen_after ++ steps = before ++ c :: after /\
      d = geodesic (end_location c) loc /\
      Forall (fun t => d < geodesic (end_location t) loc) before /\
      Forall (fun t => d <= geodesic (end_location t) loc) after.
Proof.
  induction steps as [| s rest IH];
    intros seen_before seen_after c0 c d0 d Hd0 Hbefore Hafter;
    cbn [Laptop.closest_from Laptop.meters_ltb].
  - intros H. injection H as <- <-.
    exists seen_before, seen_after. rewrite app_nil_r. auto.
  - destruct (Qltb (geodesic (end_location s) loc) d0) eqn:Hlt.
    + apply Qltb_lt in Hlt. intros Hrun.
      destruct (IH (seen_before ++ c0 :: seen_after) [] s c
                  (geodesic (end_location s) loc) d eq_refl) as
        (before & after & Hsplit & Hd & Hb & Ha); [| constructor | exact Hrun |].
      * apply Forall_app. split.
        -- eapply Forall_impl; [| exact Hbefore]. cbv beta. intros t Ht. lra.
        -- constructor; [rewrite <- Hd0; exact Hlt |].
           eapply Forall_impl; [| exact Hafter]. cbv beta. intros t Ht. lra.
      * exists before, after. split; [| auto].
        rewrite <- Hsplit. rewrite <- app_assoc. reflexivity.
    + apply Qltb_ge in Hlt. intros Hrun.
      destruct (IH seen_before (seen_after ++ [s]) c0 c d0 d Hd0 Hbefore) as
        (before & after & Hsplit & Hd & Hb & Ha); [| exact Hrun |].
      * apply Forall_app. split; [exact Hafter | constructor; [exact Hlt | constructor]].
      * exists before, after. split; [| auto].
        rewrite <- Hsplit. rewrite <- app_assoc. reflexivity.
Qed.

(** X12.  Among steps at the same smallest distance [get_closest_step]
    returns the first: every step before the returned one is strictly
    farther from the current location, every step after it at least as
    far. *)
Theorem get_closest_step_first_minimum
    (loc : coord) (steps : list step) (s : step) (d : Laptop.meters) :
  Laptop.get_closest_step geodesic loc steps = (Some s, d) ->
  exists before after : list step,
    steps = before ++ s :: after /\
    d = Laptop.Finite (geodesic (end_location s) loc) /\
    Forall (fun t => geodesic (end_location s) loc < geodesic (end_location t) loc)
      before /\
    Forall (fun t => geodesic (end_location s) loc <= geodesic (end_location t) loc)
      after.
Proof.
  unfold Laptop.get_closest_step. destruct steps as [| s0 rest];
    cbn [Laptop.closest_from Laptop.meters_ltb]; [discriminate |].
  intros Hrun.
  destruct (closest_from_candidate geodesic loc rest s0 (geodesic (end_location s0) loc))
    as (c & d' & Hrun' & _).
  rewrite Hrun' in Hrun. injection Hrun as -> <-.
  destruct (@closest_from_first_minimum loc rest [] [] s0 s _ d'
              eq_refl (Forall_nil _) (Forall_nil _) Hrun')
    as (before & after & Hsplit & Hd & Hb & Ha).
  exists before, after. subst d'. auto.
Qed.

(** A pass with no step of the route within 50 metres takes the off-route
    branch. *)
Lemma laptop_tick_off_route
    (st : Laptop.nav) (inp : Laptop.sample) (route_steps : list step) :
  Laptop.steps st = Some route_steps ->
  Forall (fun t => 50 <= geodesic (end_location t) (Laptop.current_location inp))
    route_steps ->
  Laptop.tick geodesic st inp
  = Laptop.on_off_route st
      (fst (Laptop.get_closest_step geodesic (Laptop.current_location inp) route_steps))
      inp.
Proof.
  intros Hsteps Hfar. unfold Laptop.tick. rewrite Hsteps.
  destruct route_steps as [| s0 rest].
  - reflexivity.
  - destruct (closest_step_of_nonempty geodesic (Laptop.current_location inp) s0 rest)
      as (c & d & Hclosest & Hin & Hd & _).
    rewrite Hclosest. cbn [Laptop.meters_ltb fst].
    rewrite Forall_forall in Hfar. specialize (Hfar c Hin). rewrite <- Hd in Hfar.
    apply Qltb_ge in Hfar. rewrite Hfar. reflexivity.
Qed.

(** X13.  A recomputation that fails ends the session with an exception:
    when no step of the route is within 50 metres and [get_directions]
    returns [None], the pass prints the off-route message (next to what
    [get_directions] printed itself), [steps] becomes [None], and the next
    evaluation of the loop condition raises [TypeError], whatever samples
    follow. *)
Theorem laptop_failed_recomputation_raises
    (st : Laptop.nav) (inp : Laptop.sample) (inps : list Laptop.sample)
    (route_steps : list step) :
  Laptop.steps st = Some route_steps ->
  (Laptop.step_idx st <= List.length route_steps)%nat ->
  Forall (fun t => 50 <= geodesic (end_location t) (Laptop.current_location inp))
    route_steps ->
  Laptop.directions inp = Ok None ->
  fst (Laptop.loop geodesic st (inp :: inps)) = Laptop.Crashed TypeError /\
  In OffRoute (snd (Laptop.loop geodesic st (inp :: inps))) /\
  exists (st' : Laptop.nav) (out : list output),
    Laptop.tick geodesic st inp = Next st' out /\
    Laptop.steps st' = None.
Proof.
  intros Hsteps Hguard Hfar Hnone. cbn [Laptop.loop]. unfold Laptop.loop_guard at 1 2.
  rewrite Hsteps. apply Nat.leb_le in Hguard. rewrite Hguard.
  rewrite (laptop_tick_off_route st inp Hsteps Hfar).
  unfold Laptop.on_off_route. rewrite Hnone.
  split; [destruct inps; reflexivity |].
  split; [destruct inps; left; reflexivity |].
  eexists. eexists. split; reflexivity.
Qed.

(** X14.  While the closest step is within 50 metres and carries the
    instruction of the step announced last, the loop prints nothing and
    changes nothing: not the index, and not the step remembered as
    announced. *)
Theorem laptop_loop_same_instruction_is_silent
    (st : Laptop.nav) (route_steps : list step) (p : step) (inps : list Laptop.sample) :
  Laptop.steps st = Some route_steps ->
  (Laptop.step_idx st <= List.length route_steps)%nat ->
  Laptop.prev_step st = Some p ->
  Forall
    (fun inp =>
       exists (c : step) (d : Q),
         Laptop.get_closest_step geodesic (Laptop.current_location inp) route_steps
           = (Some c, Laptop.Finite d) /\
         d < 50 /\
         html_instructions c = html_instructions p)
    inps ->
  Laptop.loop geodesic st inps = (Laptop.Looping st, []).
Proof.
  intros Hsteps Hguard Hprev Hall. apply Nat.leb_le in Hguard.
  induction Hall as [| inp inps' (c & d & Hclosest & Hd & Hsame) _ IH];
    cbn [Laptop.loop]; unfold Laptop.loop_guard at 1; rewrite Hsteps, Hguard.
  - reflexivity.
  - unfold Laptop.tick. rewrite Hsteps, Hclosest. cbn [Laptop.meters_ltb].
    apply Qltb_lt in Hd. rewrite Hd.
    unfold Laptop.on_arrival. rewrite Hprev, Hsame, String.eqb_refl. cbn [negb].
    rewrite IH. reflexivity.
Qed.

(** While the guard holds, a pass leaves the index at most one past the
    length of the route it leaves installed. *)
Lemma laptop_tick_index_bound
    (st st' : Laptop.nav) (inp : Laptop.sample) (out : list output) :
  Laptop.loop_guard st = Ok true ->
  Laptop.tick geodesic st inp = Next st' out ->
  match Laptop.steps st' with
  | Some route_steps => (Laptop.step_idx st' <= S (List.length route_steps))%nat
  | None => True
  end.
Proof.
  unfold Laptop.loop_guard, Laptop.tick.
  destruct (Laptop.steps st) as [route_steps |] eqn:Hsteps; [| discriminate].
  intros Hguard. injection Hguard as Hguard. apply Nat.leb_le in Hguard.
  destruct (Laptop.get_closest_step geodesic (Laptop.current_location inp) route_steps)
    as [closest_step distance].
  destruct (Laptop.meters_ltb distance (Laptop.Finite 50)).
  - unfold Laptop.on_arrival.
    destruct (Laptop.prev_step st) as [p |]; [| discriminate].
    destruct closest_step as [c |]; [| discriminate].
    destruct (negb _); intros H; injection H as <- _; cbn; rewrite ?Hsteps; cbn; lia.
  - unfold Laptop.on_off_route.
    destruct (Laptop.directions inp) as [[new |] | e]; try discriminate;
      intros H; injection H as <- _; cbn; [lia | exact I].
Qed.

Lemma laptop_loop_exit (inps : list Laptop.sample) :
  forall st : Laptop.nav,
    match Laptop.steps st with
    | Some route_steps => (Laptop.step_idx st <= S (List.length route_steps))%nat
    | None => True
    end ->
    match fst (Laptop.loop geodesic st inps) with
    | Laptop.Looping st' =>
        exists route_steps : list step,
          Laptop.steps st' = Some route_steps /\
          (Laptop.step_idx st' <= List.length route_steps)%nat
    | Laptop.Finished st' =>
        exists route_steps : list step,
          Laptop.steps st' = Some route_steps /\
          Laptop.step_idx st' = S (List.length route_steps)
    | Laptop.Returned => False
    | Laptop.Crashed _ => True
    end.
Proof.
  induction inps as [| inp rest IH]; intros st Hbound; cbn [Laptop.loop].
  - unfold Laptop.loop_guard.
    destruct (Laptop.steps st) as [route_steps |] eqn:Hsteps; cbn [fst]; [| exact I].
    destruct (Laptop.step_idx st <=? List.length route_steps)%nat eqn:Hguard; cbn [fst].
    + apply Nat.leb_le in Hguard. exists route_steps. split; [first [exact Hsteps | reflexivity] | exact Hguard].
    + apply Nat.leb_gt in Hguard. exists route_steps. split; [first [exact Hsteps | reflexivity] | lia].
  - destruct (Laptop.loop_guard st) as [[|] | e] eqn:Hguard; cbn [fst]; [| | exact I].
    + destruct (Laptop.tick geodesic st inp) as [st' out | out | e out] eqn:Htick;
        cbn [fst]; [| | exact I].
      * assert (Hbound' := laptop_tick_index_bound st inp Hguard Htick).
        specialize (IH st' Hbound').
        destruct (Laptop.loop geodesic st' rest) as [r out']. exact IH.
      * unfold Laptop.tick in Htick.
        destruct (Laptop.steps st) as [route_steps |]; [| discriminate].
        destruct (Laptop.get_closest_step geodesic (Laptop.current_location inp)
                    route_steps) as [closest_step distance].
        destruct (Laptop.meters_ltb distance (Laptop.Finite 50)).
        -- unfold Laptop.on_arrival in Htick.
           destruct (Laptop.prev_step st); [| discriminate].
           destruct closest_step; [| discriminate].
           destruct (negb _); discriminate.
        -- unfold Laptop.on_off_route in Htick.
           destruct (Laptop.directions inp) as [[new |] | e]; discriminate.
    + unfold Laptop.loop_guard in Hguard.
      destruct (Laptop.steps st) as [route_steps |] eqn:Hsteps; [| discriminate].
      injection Hguard as Hguard. apply Nat.leb_gt in Hguard.
      exists route_steps. split; [first [exact Hsteps | reflexivity] | lia].
Qed.

(** X15.  Once started, [main] returns only by leaving its loop, and leaves
    it only with the index one past the length of the installed route;
    while it waits for a sample the index is at most the length.  Any other
    end is an exception. *)
Theorem laptop_main_leaves_loop_past_length
    (first_inp : Laptop.sample) (inps : list Laptop.sample) (st : Laptop.nav)
    (out : list output) :
  Laptop.start first_inp = Next st out ->
  match fst (Laptop.main geodesic first_inp inps) with
  | Laptop.Looping st' =>
      exists route_steps : list step,
        Laptop.steps st' = Some route_steps /\
        (Laptop.step_idx st' <= List.length route_steps)%nat
  | Laptop.Finished st' =>
      exists route_steps : list step,
        Laptop.steps st' = Some route_steps /\
        Laptop.step_idx st' = S (List.length route_steps)
  | Laptop.Returned => False
  | Laptop.Crashed _ => True
  end.
Proof.
  intros Hstart. unfold Laptop.main. rewrite Hstart.
  assert (Hbound : match Laptop.steps st with
                   | Some route_steps =>
                       (Laptop.step_idx st <= S (List.length route_steps))%nat
                   | None => True
                   end).
  { unfold Laptop.start in Hstart.
    destruct (Laptop.directions first_inp) as [[[| n0 ns] |] | e]; cbn [first] in Hstart;
      try discriminate.
    injection Hstart as <- _. cbn. lia. }
  assert (Hexit := laptop_loop_exit inps st Hbound).
  destruct (Laptop.loop geodesic st inps) as [r out']. exact Hexit.
Qed.

End LaptopSessions.

Lemma get_closest_step_first_minimum_on_grid :
  exists before after : list step,
    [step_a; step_b; step_b] = before ++ step_b :: after /\
    Forall
      (fun t =>
         grid_distance (end_location step_b) (point 0 (1 # 1000))
         < grid_distance (end_location t) (point 0 (1 # 1000)))
      before.
Proof.
  destruct (@get_closest_step_first_minimum grid_distance (point 0 (1 # 1000))
              [step_a; step_b; step_b] step_b _ eq_refl)
    as (before & after & Hsplit & _ & Hbefore & _).
  exists before, after. split; [exact Hsplit | exact Hbefore].
Defined.

Lemma laptop_failed_recomputation_raises_on_grid :
  fst (Laptop.loop grid_distance
         {| Laptop.steps := Some [step_a; step_b];
            Laptop.step_idx := 0;
            Laptop.prev_step := Some step_a |}
         [ {| Laptop.current_location := point 0 (5 # 1000); Laptop.directions := Ok None |};
           {| Laptop.current_location := point 0 0; Laptop.directions := Ok None |} ])
  = Laptop.Crashed TypeError.
Proof.
  apply (@laptop_failed_recomputation_raises grid_distance
           {| Laptop.steps := Some [step_a; step_b];
              Laptop.step_idx := 0;
              Laptop.prev_step := Some step_a |}
           {| Laptop.current_location := point 0 (5 # 1000); Laptop.directions := Ok None |}
           [ {| Laptop.current_location := point 0 0; Laptop.directions := Ok None |} ]
           [step_a; step_b]).
  - reflexivity.
  - cbn. lia.
  - repeat constructor; discriminate.
  - reflexivity.
Defined.

Lemma laptop_loop_same_instruction_is_silent_on_grid :
  Laptop.loop grid_distance
    {| Laptop.steps := Some [step_a; step_b];
       Laptop.step_idx := 0;
       Laptop.prev_step := Some step_a |}
    [ {| Laptop.current_location := point 0 0; Laptop.directions := Ok None |};
      {| Laptop.current_location := point 0 (1 # 10000); Laptop.directions := Ok None |} ]
  = (Laptop.Looping
       {| Laptop.steps := Some [step_a; step_b];
          Laptop.step_idx := 0;
          Laptop.prev_step := Some step_a |},
     []).
Proof.
  apply (@laptop_loop_same_instruction_is_silent grid_distance
           {| Laptop.steps := Some [step_a; step_b];
              Laptop.step_idx := 0;
              Laptop.prev_step := Some step_a |}
           [step_a; step_b] step_a).
  - reflexivity.
  - cbn. lia.
  - reflexivity.
  - repeat constructor;
      (eexists; eexists; split; [reflexivity | split; reflexivity]).
Defined.

Lemma laptop_main_leaves_loop_past_length_on_grid :
  match
    fst (Laptop.main grid_distance
           {| Laptop.current_location := point 0 (-1 # 1000);
              Laptop.directions := Ok (Some [step_a; step_b]) |}
           [ {| Laptop.current_location := point 0 (1 # 1000); Laptop.directions := Ok None |};
             {| Laptop.current_location := point 0 0; Laptop.directions := Ok None |};
             {| Laptop.current_location := point 0 (1 # 1000); Laptop.directions := Ok None |} ])
  with
  | Laptop.Looping st' =>
      exists route_steps : list step,
        Laptop.steps st' = Some route_steps /\
        (Laptop.step_idx st' <= List.length route_steps)%nat
  | Laptop.Finished st' =>
      exists route_steps : list step,
        Laptop.steps st' = Some route_steps /\
        Laptop.step_idx st' = S (List.length route_steps)
  | Laptop.Returned => False
  | Laptop.Crashed _ => True
  end.
Proof.
  apply (@laptop_main_leaves_loop_past_length grid_distance
           {| Laptop.current_location := point 0 (-1 # 1000);
              Laptop.directions := Ok (Some [step_a; step_b]) |}
           _ _ _ eq_refl).
Defined.

(** ** More geo math over the real numbers *)

Section RealDistance.

Local Open Scope R_scope.




End RealDistance.

(** ** Geo math in binary64 *)

(** The two coordinates are well-formed, and each is the antipode of the
    other: the latitudes are opposite and the longitudes 180 degrees
    apart. *)
Example antipodal_points_well_formed :
  let in_range (p : float * float) :=
    ((-90 <=? fst p) && (fst p <=? 90) && (-180 <=? snd p) && (snd p <=? 180))%float in
  in_range GeoFloat.north_point = true /\
  in_range GeoFloat.south_point = true /\
  fst GeoFloat.south_point = (- fst GeoFloat.north_point)%float /\
  snd GeoFloat.south_point = (snd GeoFloat.north_point + 180)%float.
Proof. cbv zeta. repeat split; reflexivity. Qed.

(** C8, on the code of [geodesic_distance].  For the antipodal coordinates
    (86.9738, -73.2269) and (-86.9738, 106.7731), with the values the C
    library returns for the two sines, the two cosines and the two squares,
    the quantity [a] is 1 + 2^-52, so [1 - a] is negative and [math.sqrt]
    raises [ValueError]. *)
Theorem geodesic_distance_raises_on_antipodes
    (sin cos : float -> float) (atan2 pow : float -> float -> float) :
  sin (-0x1.849a4877eb758p+0)%float = (-0x1.ff49384a19ec6p-1)%float ->
  sin 0x1.921fb54442d18p+0%float = 1%float ->
  cos 0x1.849a4877eb758p+0%float = 0x1.b07a1b7d87459p-5%float ->
  cos (-0x1.849a4877eb758p+0)%float = 0x1.b07a1b7d87459p-5%float ->
  pow (-0x1.ff49384a19ec6p-1)%float 2%float = 0x1.fe92b1d47d108p-1%float ->
  pow 1%float 2%float = 1%float ->
  GeoFloat.haversine_a sin cos pow GeoFloat.north_point GeoFloat.south_point
  = 0x1.0000000000001p+0%float /\
  GeoFloat.geodesic_distance sin cos atan2 pow GeoFloat.north_point GeoFloat.south_point
  = Raise ValueError.
Proof.
  intros Hsin_lat Hsin_lon Hcos_1 Hcos_2 Hpow_lat Hpow_lon.
  assert (Ha : GeoFloat.haversine_a sin cos pow GeoFloat.north_point GeoFloat.south_point
               = 0x1.0000000000001p+0%float).
  { unfold GeoFloat.haversine_a, GeoFloat.north_point, GeoFloat.south_point.
    cbv zeta. cbn [fst snd].
    vm_compute (GeoFloat.radians _). vm_compute (_ / 2)%float.
    rewrite Hsin_lat, Hsin_lon, Hcos_1, Hcos_2, Hpow_lat, Hpow_lon.
    reflexivity. }
  split; [exact Ha |].
  unfold GeoFloat.geodesic_distance. cbv zeta. rewrite Ha. reflexivity.
Qed.

Lemma geodesic_distance_raises_on_antipodes_with_tables :
  GeoFloat.geodesic_distance GeoFloat.table_sin GeoFloat.table_cos
    GeoFloat.table_atan2 GeoFloat.table_pow GeoFloat.north_point GeoFloat.south_point
  = Raise ValueError.
Proof.
  apply (@geodesic_distance_raises_on_antipodes GeoFloat.table_sin GeoFloat.table_cos
           GeoFloat.table_atan2 GeoFloat.table_pow);
    reflexivity.
Defined.
